(** * The stdlib integration-test generator ([scripts/gen_integration_tests.py])

    A shallow embedding of the generator script and the properties of it
    that the specification states.

    Conventions of the embedding.
    - A Python [str] is a [string]; one [ascii] stands for one code point
      below 256.  The character predicates ([isspace], [is_word], line
      breaks) are the ones CPython uses on those code points.
    - A Python [int] used as a counter or a depth is a [Z] or a [nat].
    - A [set] of names is a [gset string]; the insertion-ordered [dict] of
      record fields is an association list ([odict]); the output directory
      is a finite map from paths (lists of components below the output
      root) to file contents.
    - Regular expressions are values of type [regex], run by a backtracking
      matcher with the priorities of Python's [re] (greedy and lazy
      repetition, first alternative found wins).
    - File-system effects are threaded explicitly; exceptions are values of
      type [exception].
    - The recursion of the synthesizer takes the depth it may use as an
      argument; the loops of the domain parser recurse on the lines left.

    The embedding comes first, then the example inputs and the vocabulary
    of the statements, then the statements, one section for each of the
    properties C1 to C10 of the specification. *)

From Stdlib Require Import String Ascii ZArith List Lia.
From stdpp Require Import base strings list gmap sorting pretty.
From Equations Require Import Equations.

Open Scope string_scope.
Open Scope list_scope.

(** ** Characters *)

Definition NL : string := String "010"%char "".
Definition DQ : string := String "034"%char "".
Definition SQ : string := String "039"%char "".
Definition BSL : string := String "092"%char "".

Definition code (c : ascii) : N := N_of_ascii c.

Definition in_range (lo hi : N) (c : ascii) : bool :=
  ((lo <=? code c) && (code c <=? hi))%N.

Definition is_upper (c : ascii) : bool := in_range 65 90 c.
Definition is_lower (c : ascii) : bool := in_range 97 122 c.
Definition is_digit (c : ascii) : bool := in_range 48 57 c.
Definition is_char (x : ascii) (c : ascii) : bool := Ascii.eqb c x.
Definition not_char (x : ascii) (c : ascii) : bool := negb (Ascii.eqb c x).

(** [[A-Za-z]] and [[A-Za-z0-9_]] *)
Definition is_letter (c : ascii) : bool := is_upper c || is_lower c.
Definition is_ident (c : ascii) : bool :=
  is_upper c || is_lower c || is_digit c || is_char "_" c.

(** [str.isspace], which is also [\s] of a [str] pattern. *)
Definition isspace (c : ascii) : bool :=
  in_range 9 13 c || in_range 28 32 c || (code c =? 133)%N || (code c =? 160)%N.

(** [\w] of a [str] pattern: alphanumeric or underscore. *)
Definition is_word (c : ascii) : bool :=
  is_ident c
  || (code c =? 170)%N || (code c =? 178)%N || (code c =? 179)%N
  || (code c =? 181)%N || (code c =? 185)%N || (code c =? 186)%N
  || in_range 188 190 c || in_range 192 214 c || in_range 216 246 c
  || in_range 248 255 c.

(** The line boundaries of [str.splitlines]. *)
Definition is_linebreak (c : ascii) : bool :=
  in_range 10 13 c || in_range 28 30 c || (code c =? 133)%N.

(** [.] matches everything but a newline. *)
Definition not_newline (c : ascii) : bool := negb (code c =? 10)%N.

(** ** Python string operations *)

Definition snoc (s : string) (c : ascii) : string := s +:+ String c "".

Definition nonempty (s : string) : bool :=
  match s with "" => false | _ => true end.

Fixpoint lstrip_by (p : ascii -> bool) (s : string) : string :=
  match s with
  | String c s' => if p c then lstrip_by p s' else s
  | "" => ""
  end.

Fixpoint rstrip_by (p : ascii -> bool) (s : string) : string :=
  match s with
  | "" => ""
  | String c s' =>
      let r := rstrip_by p s' in
      if negb (nonempty r) && p c then "" else String c r
  end.

(** [s.strip()] and [s.strip(chars)] for a one-character [chars] *)
Definition strip (s : string) : string := rstrip_by isspace (lstrip_by isspace s).
Definition strip_char (x : ascii) (s : string) : string :=
  rstrip_by (is_char x) (lstrip_by (is_char x) s).

Fixpoint startswith (s pre : string) : bool :=
  match pre with
  | "" => true
  | String a pre' =>
      match s with
      | String c s' => Ascii.eqb c a && startswith s' pre'
      | "" => false
      end
  end.
Definition endswith (s suf : string) : bool :=
  startswith (String.rev s) (String.rev suf).

(** [s.split(sep)] for a one-character separator: never empty. *)
Fixpoint split_on (sep : ascii) (s : string) : list string :=
  match s with
  | "" => [""]
  | String c s' =>
      if Ascii.eqb c sep then "" :: split_on sep s'
      else match split_on sep s' with
           | h :: t => String c h :: t
           | [] => [String c ""]
           end
  end.

(** [s.split(sub, 1)[0]]: the text before the first occurrence of [sub]. *)
Fixpoint before_first (sub s : string) : string :=
  if startswith s sub then ""
  else match s with
       | "" => ""
       | String c s' => String c (before_first sub s')
       end.

(** [s.split()]: the maximal runs of non-space characters. *)
Fixpoint split_ws_go (s cur : string) : list string :=
  match s with
  | "" => if nonempty cur then [cur] else []
  | String c s' =>
      if isspace c
      then (if nonempty cur then cur :: split_ws_go s' "" else split_ws_go s' "")
      else split_ws_go s' (snoc cur c)
  end.
Definition split_ws (s : string) : list string := split_ws_go s "".

(** [s.splitlines()]; a carriage return followed by a newline is one break. *)
Fixpoint splitlines_go (s cur : string) (after_cr : bool) : list string :=
  match s with
  | "" => if nonempty cur then [cur] else []
  | String c s' =>
      if after_cr && (code c =? 10)%N then splitlines_go s' cur false
      else if is_linebreak c then cur :: splitlines_go s' "" (code c =? 13)%N
      else splitlines_go s' (snoc cur c) false
  end.
Definition splitlines (s : string) : list string := splitlines_go s "" false.

(** [sep.join(parts)] *)
Definition join (sep : string) (parts : list string) : string :=
  String.concat sep parts.

(** [s.find(sub, start)]: the index found, or [-1]. *)
Definition find (s sub : string) (start : nat) : Z :=
  match String.index start sub s with
  | Some i => Z.of_nat i
  | None => (-1)%Z
  end.

(** [s[i:j]] for [0 <= i <= j], and [s[1:-1]] *)
Definition slice (s : string) (i j : nat) : string := String.substring i (j - i) s.
Definition slice_1_m1 (s : string) : string :=
  String.substring 1 (String.length s - 2) s.

(** [s.replace(x, y)] for single characters *)
Fixpoint replace_char (x y : ascii) (s : string) : string :=
  match s with
  | "" => ""
  | String c s' => String (if Ascii.eqb c x then y else c) (replace_char x y s')
  end.

(** [x in s] for a one-character [x] *)
Fixpoint contains_char (x : ascii) (s : string) : bool :=
  match s with
  | "" => false
  | String c s' => Ascii.eqb c x || contains_char x s'
  end.

(** ** Regular expressions

    The patterns of the script only repeat single-character classes, so
    repetition is a constructor on classes and the matcher is structural. *)

Inductive regex : Type :=
| Eps
| Lit (s : string)                          (* literal text *)
| Cls (p : ascii -> bool)                   (* one character of a class *)
| Star (p : ascii -> bool)                  (* [p*], greedy *)
| Plus (p : ascii -> bool)                  (* [p+], greedy *)
| PlusLazy (p : ascii -> bool)              (* [p+?] *)
| Cap (n : nat) (r : regex)                 (* capturing group number [n] *)
| Cat (r1 r2 : regex)
| Bos                                       (* [^] *)
| Eos                                       (* [$]: at the end, or before a final newline *)
| WordB.                                    (* [\b] *)

Definition seq (rs : list regex) : regex := fold_right Cat Eps rs.

Definition captures := list (nat * string).

(** A continuation takes the character before the position, the rest of the
    subject and the groups captured so far. *)
Definition cont := option ascii -> string -> captures -> option captures.

Fixpoint lit_match (l s : string) (prev : option ascii) : option (option ascii * string) :=
  match l with
  | "" => Some (prev, s)
  | String a l' =>
      match s with
      | String c s' => if Ascii.eqb c a then lit_match l' s' (Some c) else None
      | "" => None
      end
  end.

Fixpoint rep_greedy (p : ascii -> bool) (k : cont) (prev : option ascii)
    (s : string) (caps : captures) : option captures :=
  match s with
  | String c s' =>
      if p c then
        match rep_greedy p k (Some c) s' caps with
        | Some r => Some r
        | None => k prev s caps
        end
      else k prev s caps
  | "" => k prev s caps
  end.

Fixpoint rep_lazy (p : ascii -> bool) (k : cont) (prev : option ascii)
    (s : string) (caps : captures) : option captures :=
  match k prev s caps with
  | Some r => Some r
  | None =>
      match s with
      | String c s' => if p c then rep_lazy p k (Some c) s' caps else None
      | "" => None
      end
  end.

Definition word_at (o : option ascii) : bool :=
  match o with Some c => is_word c | None => false end.

Definition head_char (s : string) : option ascii :=
  match s with String c _ => Some c | "" => None end.

Fixpoint rmatch (r : regex) (k : cont) (prev : option ascii) (s : string)
    (caps : captures) : option captures :=
  match r with
  | Eps => k prev s caps
  | Lit l =>
      match lit_match l s prev with
      | Some (prev', s') => k prev' s' caps
      | None => None
      end
  | Cls p =>
      match s with
      | String c s' => if p c then k (Some c) s' caps else None
      | "" => None
      end
  | Star p => rep_greedy p k prev s caps
  | Plus p =>
      match s with
      | String c s' => if p c then rep_greedy p k (Some c) s' caps else None
      | "" => None
      end
  | PlusLazy p =>
      match s with
      | String c s' => if p c then rep_lazy p k (Some c) s' caps else None
      | "" => None
      end
  | Cap n r1 =>
      rmatch r1
        (fun prev' s' caps' =>
           k prev' s'
             ((n, String.substring 0 (String.length s - String.length s') s) :: caps'))
        prev s caps
  | Cat r1 r2 => rmatch r1 (rmatch r2 k) prev s caps
  | Bos => match prev with None => k prev s caps | Some _ => None end
  | Eos => if negb (nonempty s) || String.eqb s NL then k prev s caps else None
  | WordB =>
      if xorb (word_at prev) (word_at (head_char s)) then k prev s caps else None
  end.

Definition accept : cont := fun _ _ caps => Some caps.

(** [re.match(r, s)] and [re.search(r, s)] *)
Definition re_match (r : regex) (s : string) : option captures :=
  rmatch r accept None s [].

Fixpoint re_search_from (r : regex) (prev : option ascii) (s : string) : option captures :=
  match rmatch r accept prev s [] with
  | Some caps => Some caps
  | None =>
      match s with
      | String c s' => re_search_from r (Some c) s'
      | "" => None
      end
  end.
Definition re_search (r : regex) (s : string) : option captures :=
  re_search_from r None s.

(** [m.group(n)] *)
Fixpoint group (n : nat) (caps : captures) : string :=
  match caps with
  | [] => ""
  | (i, v) :: rest => if Nat.eqb i n then v else group n rest
  end.

(** [re.sub] of the pattern [^[0-9]+] by the empty string *)
Definition strip_leading_digits (s : string) : string := lstrip_by is_digit s.

(** [re.sub] of the pattern [[^A-Za-z0-9_]] by an underscore *)
Fixpoint sub_non_ident (s : string) : string :=
  match s with
  | "" => ""
  | String c s' => String (if is_ident c then c else "_"%char) (sub_non_ident s')
  end.

(** [re.sub] of the pattern [_+] by an underscore: a run of underscores
    becomes one. *)
Fixpoint collapse_go (s : string) (after_us : bool) : string :=
  match s with
  | "" => ""
  | String c s' =>
      if is_char "_" c
      then (if after_us then collapse_go s' true else String c (collapse_go s' true))
      else String c (collapse_go s' false)
  end.
Definition collapse_underscores (s : string) : string := collapse_go s false.

(** ** Exceptions and insertion-ordered dictionaries *)

Inductive exception : Type :=
| ValueError (msg : string)
| SystemExit (msg : string).

Inductive result (A : Type) : Type :=
| Ok (a : A)
| Raise (e : exception).
Arguments Ok {A} a.
Arguments Raise {A} e.

Definition bind {A B : Type} (x : result A) (f : A -> result B) : result B :=
  match x with
  | Ok a => f a
  | Raise e => Raise e
  end.

(** A Python [dict] with string keys: assigning to a key that is present
    keeps its position, a new key goes last; iteration is in list order. *)
Definition odict (V : Type) : Type := list (string * V).

Fixpoint od_get {V : Type} (k : string) (d : odict V) : option V :=
  match d with
  | [] => None
  | (k', v) :: d' => if String.eqb k' k then Some v else od_get k d'
  end.

Fixpoint od_set {V : Type} (k : string) (v : V) (d : odict V) : odict V :=
  match d with
  | [] => [(k, v)]
  | (k', v') :: d' =>
      if String.eqb k' k then (k, v) :: d' else (k', v') :: od_set k v d'
  end.

(** ** SourceExtractor *)

(** [MODULE_NAME:\s*&str\s*=\s*Q([^Q]+)Q], where [Q] is the double quote *)
Definition module_name_re : regex :=
  seq [Lit "MODULE_NAME:"; Star isspace; Lit "&str"; Star isspace; Lit "=";
       Star isspace; Lit DQ; Cap 1 (Plus (not_char "034")); Lit DQ].

Definition parse_module_name (rs_text : string) : result string :=
  match re_search module_name_re rs_text with
  | None => Raise (ValueError "missing MODULE_NAME")
  | Some m => Ok (group 1 m)
  end.

Definition source_marker : string := "pub const SOURCE: &str = r#" +:+ DQ.
Definition source_terminator : string := DQ +:+ "#;".

Definition parse_aivi_source (rs_text : string) : result string :=
  let start := find rs_text source_marker 0 in
  if (start <? 0)%Z then Raise (ValueError "missing SOURCE marker")
  else
    let start := (start + Z.of_nat (String.length source_marker))%Z in
    let end_ := find rs_text source_terminator (Z.to_nat start) in
    if (end_ <? 0)%Z then Raise (ValueError "missing SOURCE terminator")
    else Ok (slice rs_text (Z.to_nat start) (Z.to_nat end_)).

(** ** DeclarationParser *)

(** [s[n:]] *)
Definition drop_str (n : nat) (s : string) : string :=
  String.substring n (String.length s - n) s.

Definition split_exports (aivi_source : string) : list string :=
  List.flat_map
    (fun line =>
       let s := strip line in
       if negb (startswith s "export ") then []
       else
         let rest := strip (before_first "//" (drop_str (String.length "export ") s)) in
         List.filter nonempty (List.map strip (split_on "," rest)))
    (splitlines aivi_source).

(** [^[a-z][A-Za-z0-9_]*$], [^[A-Z][A-Za-z0-9_]*$], [^[0-9]+[A-Za-z][A-Za-z0-9_]*$] *)
Definition lower_value_re : regex := seq [Bos; Cls is_lower; Star is_ident; Eos].
Definition upper_name_re : regex := seq [Bos; Cls is_upper; Star is_ident; Eos].
Definition suffix_template_re : regex :=
  seq [Bos; Plus is_digit; Cls is_letter; Star is_ident; Eos].

Definition is_lower_value (name : string) : bool :=
  bool_decide (is_Some (re_match lower_value_re name)).
Definition is_upper_name (name : string) : bool :=
  bool_decide (is_Some (re_match upper_name_re name)).
Definition is_suffix_template (name : string) : bool :=
  bool_decide (is_Some (re_match suffix_template_re name)).

Definition sanitize_segment (seg : string) : string :=
  let seg := strip seg in
  let seg := replace_char "-" "_" seg in
  let seg := sub_non_ident seg in
  let seg := strip_char "_" (collapse_underscores seg) in
  let seg := if negb (nonempty seg) then "x" else seg in
  match seg with
  | String c _ => if is_digit c then "n_" +:+ seg else seg
  | "" => seg
  end.

Definition module_segments (module_name : string) : list string :=
  List.map sanitize_segment (split_on "." module_name).

(** An identifier starting with a capital: [[A-Z][A-Za-z0-9_]*] *)
Definition upper_ident : regex := seq [Cls is_upper; Star is_ident].

(** [^\s*(UPPER)\b.*=], where [UPPER] is [[A-Z][A-Za-z0-9_]*] *)
Definition type_def_re : regex :=
  seq [Bos; Star isspace; Cap 1 upper_ident; WordB; Star not_newline; Lit "="].

Definition parse_type_defs (aivi_source : string) : gset string :=
  fold_left
    (fun out line =>
       match re_match type_def_re line with
       | Some m => out ∪ {[ group 1 m ]}
       | None => out
       end)
    (splitlines aivi_source) ∅.

(** [^\s*(UPPER)\b[^=]*=\s*\{(BODY)\}\s*$] for a record line, where [BODY]
    is a greedy [.*], and [^(LOWER)\s*:\s*(.+)$] for a field, where [LOWER]
    is [[a-z][A-Za-z0-9_]*] *)
Definition record_re : regex :=
  seq [Bos; Star isspace; Cap 1 upper_ident; WordB; Star (not_char "=");
       Lit "="; Star isspace; Lit "{"; Cap 2 (Star not_newline); Lit "}";
       Star isspace; Eos].
Definition field_re : regex :=
  seq [Bos; Cap 1 (seq [Cls is_lower; Star is_ident]); Star isspace; Lit ":";
       Star isspace; Cap 2 (Plus not_newline); Eos].

(** The loop of [parse_record_type_aliases] over the parts of [body] between
    commas. *)
Definition record_fields (body : string) : odict string :=
  if nonempty body then
    fold_left
      (fun fields part =>
         let item := strip part in
         if negb (nonempty item) then fields
         else match re_match field_re item with
              | None => fields
              | Some fm => od_set (group 1 fm) (strip (group 2 fm)) fields
              end)
      (split_on "," body) []
  else [].

Definition parse_record_type_aliases (aivi_source : string) : odict (odict string) :=
  fold_left
    (fun out line =>
       match re_match record_re line with
       | None => out
       | Some m => od_set (group 1 m) (record_fields (strip (group 2 m))) out
       end)
    (splitlines aivi_source) [].

(** [^\s*class\s+(UPPER)\b] *)
Definition class_re : regex :=
  seq [Bos; Star isspace; Lit "class"; Plus isspace; Cap 1 upper_ident; WordB].

Definition parse_class_defs (aivi_source : string) : gset string :=
  fold_left
    (fun out line =>
       match re_match class_re line with
       | Some m => out ∪ {[ group 1 m ]}
       | None => out
       end)
    (splitlines aivi_source) ∅.

(** The pattern of [parse_ctor_exports] is the raw string
    [^(UPPER)\\b.*=\\s*(.+)$]: in it [\\] is an escaped
    backslash, so the identifier must be followed by the two characters
    backslash and [b], and the equals sign by a backslash and any number of
    letters [s]. *)
Definition ctor_re : regex :=
  seq [Bos; Cap 1 upper_ident; Lit (BSL +:+ "b"); Star not_newline;
       Lit ("=" +:+ BSL); Star (is_char "s"); Cap 2 (Plus not_newline); Eos].

Definition parse_ctor_exports (aivi_source : string) : gset string :=
  fold_left
    (fun out line =>
       let s := strip line in
       if negb (nonempty s) || startswith s "//" then out
       else if negb (contains_char "|" s) || negb (contains_char "=" s) then out
       else match re_match ctor_re s with
            | None => out
            | Some m =>
                fold_left
                  (fun out part =>
                     match split_ws (strip part) with
                     | [] => out
                     | name :: _ => if is_upper_name name then out ∪ {[ name ]} else out
                     end)
                  (split_on "|" (group 2 m)) out
            end)
    (splitlines aivi_source) ∅.

(** ** ExpressionSynthesizer *)

Definition opens_bracket (ch : ascii) : bool :=
  is_char "(" ch || is_char "[" ch || is_char "{" ch.
Definition closes_bracket (ch : ascii) : bool :=
  is_char ")" ch || is_char "]" ch || is_char "}" ch.

(** The [for ch in text] loop of [_split_top_level_commas], on the state
    [(parts, cur, depth)]. *)
Fixpoint split_loop (text : string) (parts : list string) (cur : string) (depth : Z)
    : list string * string :=
  match text with
  | "" => (parts, cur)
  | String ch rest =>
      let depth :=
        if opens_bracket ch then (depth + 1)%Z
        else if closes_bracket ch then Z.max 0 (depth - 1)
        else depth in
      if is_char "," ch && (depth =? 0)%Z
      then split_loop rest (parts ++ [strip cur]) "" depth
      else split_loop rest parts (snoc cur ch) depth
  end.

Definition _split_top_level_commas (text : string) : list string :=
  let '(parts, cur) := split_loop text [] "" 0%Z in
  let tail := strip cur in
  if nonempty tail then parts ++ [tail] else parts.

(** The words of [ty.strip().split()] joined by single spaces. *)
Definition normalize (ty : string) : string := join " " (split_ws (strip ty)).

(** [expr or Unit]: [None] and the empty string are both falsy. *)
Definition or_unit (expr : option string) : string :=
  match expr with
  | Some e => if nonempty e then e else "Unit"
  | None => "Unit"
  end.

(** The rules after the tuple rule: [Map ], [Set ], [Delta]. *)
Definition sample_late_rules (ty : string)
    (domain_templates domain_named_literals : list string) : option string :=
  if startswith ty "Map " then Some ("Map.insert " +:+ DQ +:+ "a" +:+ DQ +:+ " 1 Map.empty")
  else if startswith ty "Set " then Some "Set.insert 1 Set.empty"
  else if String.eqb ty "Delta" then
    match domain_templates with
    | tpl :: _ => Some ("2" +:+ strip_leading_digits tpl)
    | [] =>
        match domain_named_literals with
        | lit :: _ => Some lit
        | [] => None
        end
    end
  else None.

(** [mapM] in the option monad: the recursion of the synthesizer runs out of
    fuel as a whole when one of its calls does. *)
Fixpoint map_opt {A B : Type} (f : A -> option B) (l : list A) : option (list B) :=
  match l with
  | [] => Some []
  | x :: l' =>
      match f x with
      | None => None
      | Some y =>
          match map_opt f l' with
          | None => None
          | Some ys => Some (y :: ys)
          end
      end
  end.

(** [sample_expr_for_type].  The recursion of the source is not bounded by
    its arguments, so the embedding takes the depth of recursion it may use:
    [fuel] is the number of nested calls of the function that the
    interpreter still allows (CPython allows a thousand frames in all, and
    the script never raises that limit; a call takes one frame, and before
    CPython 3.12 the comprehension of the tuple rule one more).  The outer
    [None] is the [RecursionError] that Python raises when these are not
    enough; [Some r] is the value returned, [r] being a string or Python's
    [None]. *)
Fixpoint sample_expr_for_type (fuel : nat) (ty : string)
    (record_types : odict (odict string))
    (domain_templates domain_named_literals : list string)
    : option (option string) :=
  match fuel with
  | O => None
  | S fuel =>
      let ty := normalize ty in
      match od_get ty record_types with
      | Some fields =>
          match
            map_opt
              (fun '(field, field_ty) =>
                 match sample_expr_for_type fuel field_ty record_types
                         domain_templates domain_named_literals with
                 | None => None
                 | Some expr => Some (field +:+ ": " +:+ or_unit expr)
                 end)
              fields
          with
          | None => None
          | Some parts => Some (Some ("{ " +:+ join ", " parts +:+ " }"))
          end
      | None =>
          if String.eqb ty "Int" then Some (Some "1")
          else if String.eqb ty "Float" then Some (Some "1.0")
          else if String.eqb ty "Bool" then Some (Some "True")
          else if String.eqb ty "Text" then Some (Some (DQ +:+ "x" +:+ DQ))
          else if String.eqb ty "Char" then Some (Some (SQ +:+ "x" +:+ SQ))
          else if String.eqb ty "Unit" then Some (Some "Unit")
          else if String.eqb ty "Bytes" then Some (Some "bytes.empty")
          else if startswith ty "Option " then Some (Some "None")
          else if startswith ty "List " then Some (Some "[]")
          else
            let late := Some (sample_late_rules ty domain_templates domain_named_literals) in
            if startswith ty "(" && endswith ty ")" then
              let inner := strip (slice_1_m1 ty) in
              let items := _split_top_level_commas inner in
              if (2 <=? List.length items)%nat then
                match
                  map_opt
                    (fun item =>
                       match sample_expr_for_type fuel item record_types
                               domain_templates domain_named_literals with
                       | None => None
                       | Some expr => Some (or_unit expr)
                       end)
                    items
                with
                | None => None
                | Some exprs => Some (Some ("(" +:+ join ", " exprs +:+ ")"))
                end
              else late
            else late
      end
  end.

(** ** TestEmitter *)

(** A path below the output root [OUT], as its list of components, and the
    files below that root. *)
Definition path : Type := list string.
Abbreviation tree := (gmap (list string) string).

(** [write]: parent directories are created as needed, the file is
    overwritten.  This is what the call does when it returns; it raises
    instead when a regular file stands where a directory of the path must
    be, or when the path is a directory ([blocked], below). *)
Definition write (p : path) (text : string) (fs : tree) : tree := <[p := text]> fs.

Definition write_all (files : list (path * string)) (fs : tree) : tree :=
  fold_left (fun fs f => write f.1 f.2 fs) files fs.

Definition header (module_name : string) : string :=
  "@no_prelude" +:+ NL +:+ "module " +:+ module_name +:+ NL.
Definition use_select (module item : string) : string :=
  "use " +:+ module +:+ " (" +:+ item +:+ ")" +:+ NL.
Definition use_all (module : string) : string := "use " +:+ module +:+ NL.
Definition use_testlib : string := "use aivi.testing (assert)" +:+ NL.

(** The two test blocks: the one that evaluates [subject] and the one that
    only asserts. *)
Definition smoke_subject : string :=
  NL +:+ "@test" +:+ NL +:+ "smoke = effect {" +:+ NL +:+ "  _ <- pure subject" +:+ NL
     +:+ "  _ <- assert True" +:+ NL +:+ "}" +:+ NL.
Definition smoke_ref : string :=
  NL +:+ "@test" +:+ NL +:+ "smoke = effect {" +:+ NL +:+ "  _ <- assert True" +:+ NL
     +:+ "}" +:+ NL.

(** The base magnitude and the literal of a suffix *)
Definition suffix_literal (suffix : string) : string :=
  if String.eqb suffix "dec" then "3.14" +:+ suffix else "2" +:+ suffix.

(** The file [basic_export_test] writes: its path and its text, or [None]
    when the function returns without writing. *)
Definition basic_export_file (modname export_name : string) (type_defs : gset string)
    (record_types : odict (odict string)) (ctor_exports : gset string)
    : option (path * string) :=
  let mod_segs := module_segments modname in
  let case := sanitize_segment export_name in
  let test_module := join "." (["integrationTests"; "stdlib"] ++ mod_segs ++ [case]) in
  let out_path := mod_segs ++ [case +:+ ".aivi"] in
  let body := header test_module in
  let body := body +:+ NL +:+ "use aivi" +:+ NL +:+ use_testlib in
  let body := body +:+ NL +:+ use_all modname in
  if startswith export_name "domain " then None
  else if is_upper_name export_name then
    if bool_decide (export_name ∈ ctor_exports) then
      let body := body +:+ NL +:+ "subject = " +:+ export_name +:+ NL in
      let body := body +:+ smoke_subject in
      Some (out_path, body)
    else
      let body := body +:+ NL +:+ "Ref = " +:+ export_name +:+ NL in
      let body := body +:+ smoke_ref in
      Some (out_path, body)
  else
    let subject_expr :=
      if is_suffix_template export_name
      then suffix_literal (strip_leading_digits export_name)
      else export_name in
    let body := body +:+ NL +:+ "subject = " +:+ subject_expr +:+ NL in
    let body := body +:+ smoke_subject in
    Some (out_path, body).

Definition basic_export_test (modname export_name : string) (type_defs : gset string)
    (record_types : odict (odict string)) (ctor_exports : gset string)
    (fs : tree) : tree :=
  match basic_export_file modname export_name type_defs record_types ctor_exports with
  | Some (out_path, body) => write out_path body fs
  | None => fs
  end.

(** ** Domain blocks *)

Record DomainDef : Type := mkDomainDef {
  name : string;
  carrier : string;
  operators : list (string * string);
  templates : list string;
  named_literals : list string
}.

(** [^\s*domain\s+(NAME)\s+over\s+(.+?)\s*=\s*{\s*$], where [NAME] is
    [[A-Za-z][A-Za-z0-9_]*] *)
Definition domain_re : regex :=
  seq [Bos; Star isspace; Lit "domain"; Plus isspace;
       Cap 1 (seq [Cls is_letter; Star is_ident]); Plus isspace; Lit "over";
       Plus isspace; Cap 2 (PlusLazy not_newline); Star isspace; Lit "=";
       Star isspace; Lit "{"; Star isspace; Eos].

(** [^\s*\((OP)\)\s*:\s*(.+?)\s*$], where [OP] is [[^)]+] *)
Definition operator_re : regex :=
  seq [Bos; Star isspace; Lit "("; Cap 1 (Plus (not_char ")")); Lit ")";
       Star isspace; Lit ":"; Star isspace; Cap 2 (PlusLazy not_newline);
       Star isspace; Eos].

(** [^\s*(TPL)\s*=\s*.+$], where [TPL] is [[0-9]+[A-Za-z][A-Za-z0-9_]*] *)
Definition template_re : regex :=
  seq [Bos; Star isspace; Cap 1 (seq [Plus is_digit; Cls is_letter; Star is_ident]);
       Star isspace; Lit "="; Star isspace; Plus not_newline; Eos].

(** [^\s*(LOWER)\s*=\s*(UPPER)\b.*$] *)
Definition named_literal_re : regex :=
  seq [Bos; Star isspace; Cap 1 (seq [Cls is_lower; Star is_ident]); Star isspace;
       Lit "="; Star isspace; Cap 2 upper_ident; WordB; Star not_newline; Eos].

(** [s.count(x)] for a one-character [x] *)
Fixpoint count_char (x : ascii) (s : string) : Z :=
  match s with
  | "" => 0%Z
  | String c s' => ((if Ascii.eqb c x then 1 else 0) + count_char x s')%Z
  end.

(** The inner [while i < len(lines) and brace > 0] loop; [lines] is
    [lines[i:]], and the loop returns the block and the lines left. *)
Fixpoint take_block (lines : list string) (brace : Z) (block : list string)
    : list string * list string :=
  match lines with
  | [] => (block, [])
  | cur :: rest =>
      if (0 <? brace)%Z then
        let brace := (brace + count_char "{" cur)%Z in
        let brace := (brace - count_char "}" cur)%Z in
        let block := if (0 <? brace)%Z then block ++ [cur] else block in
        take_block rest brace block
      else (block, lines)
  end.

(** The [for bline in block] loop, on [(operators, templates, named_literals)]. *)
Definition classify_block (block : list string)
    : list (string * string) * list string * list string :=
  fold_left
    (fun '(operators, templates, named_literals) bline =>
       match re_match operator_re bline with
       | Some m_op =>
           (operators ++ [(strip (group 1 m_op), strip (group 2 m_op))],
            templates, named_literals)
       | None =>
           match re_match template_re bline with
           | Some m_tpl => (operators, templates ++ [group 1 m_tpl], named_literals)
           | None =>
               match re_match named_literal_re bline with
               | Some m_named => (operators, templates, named_literals ++ [group 1 m_named])
               | None => (operators, templates, named_literals)
               end
           end
       end)
    block ([], [], []).

Definition domain_of_block (name carrier : string) (block : list string) : DomainDef :=
  let '(operators, templates, named_literals) := classify_block block in
  mkDomainDef name carrier operators templates named_literals.

(** The outer [while i < len(lines)] loop of [parse_domain_defs]; [lines] is
    [lines[i:]].  The inner loop hands back the lines it did not consume, so
    the recursion is on the number of lines left. *)
Equations? parse_domain_lines (lines : list string) (out : list DomainDef)
    : list DomainDef by wf (length lines) lt :=
  parse_domain_lines [] out := out;
  parse_domain_lines (line :: rest) out with re_match domain_re line => {
    | None := parse_domain_lines rest out;
    | Some m :=
        parse_domain_lines (take_block rest 1 []).2
          (out ++ [domain_of_block (group 1 m) (strip (group 2 m))
                     (take_block rest 1 []).1]) }.
Proof.
  all: simpl; try lia.
  assert (H : forall lines brace block,
             length (take_block lines brace block).2 <= length lines).
  { induction lines as [|cur lines IH]; intros brace block; simpl; [lia|].
    destruct (0 <? brace)%Z; simpl; [|lia].
    specialize (IH (brace + count_char "{" cur - count_char "}" cur)%Z
                   (if (0 <? brace + count_char "{" cur - count_char "}" cur)%Z
                    then block ++ [cur] else block)).
    lia. }
  specialize (H rest 1%Z []). lia.
Qed.

Definition parse_domain_defs (aivi_source : string) : list DomainDef :=
  parse_domain_lines (splitlines aivi_source) [].

(** The files [domain_tests] writes, in the order it writes them. *)
Definition domain_files (modname aivi_src : string) (domain : DomainDef)
    : list (path * string) :=
  let mod_segs := module_segments modname in
  let dom_dir := mod_segs ++ ["domain_" +:+ sanitize_segment (name domain)] in
  let dom_mod_prefix :=
    ["integrationTests"; "stdlib"] ++ mod_segs
      ++ ["domain_" +:+ sanitize_segment (name domain)] in
  List.map
    (fun tpl =>
       let suffix := strip_leading_digits tpl in
       let case := "suffix_" +:+ sanitize_segment suffix in
       let test_module := join "." (dom_mod_prefix ++ [case]) in
       let out_path := dom_dir ++ [case +:+ ".aivi"] in
       let body := header test_module in
       let body := body +:+ NL +:+ "use aivi" +:+ NL +:+ use_testlib in
       let body := body +:+ NL +:+ use_all modname in
       let body := body +:+ NL +:+ use_select modname ("domain " +:+ name domain) in
       let literal_base := if String.eqb suffix "dec" then "3.14" else "2" in
       let body := body +:+ NL +:+ "subject = " +:+ literal_base +:+ suffix +:+ NL in
       let body := body +:+ smoke_subject in
       (out_path, body))
    (templates domain)
  ++
  List.map
    (fun lit =>
       let case := "literal_" +:+ sanitize_segment lit in
       let test_module := join "." (dom_mod_prefix ++ [case]) in
       let out_path := dom_dir ++ [case +:+ ".aivi"] in
       let body := header test_module in
       let body := body +:+ NL +:+ "use aivi" +:+ NL +:+ use_testlib in
       let body := body +:+ NL +:+ use_all modname in
       let body := body +:+ NL +:+ use_select modname ("domain " +:+ name domain) in
       let body := body +:+ NL +:+ "subject = " +:+ lit +:+ NL in
       let body := body +:+ smoke_subject in
       (out_path, body))
    (named_literals domain).

Definition domain_tests (modname aivi_src : string) (domain : DomainDef) (fs : tree) : tree :=
  write_all (domain_files modname aivi_src domain) fs.

(** ** Driver *)

(** The files written for the plain exports of a module, given its parsed
    declarations: the [for export in split_exports(aivi_src)] loop of [main].
    The state is the output tree and the counter [generated]. *)
Definition export_loop (modname : string) (type_defs : gset string)
    (record_types : odict (odict string)) (class_defs ctor_exports : gset string)
    (exports : list string) (st : tree * nat) : tree * nat :=
  fold_left
    (fun st export =>
       if startswith export "domain " then st
       else if bool_decide (export ∈ class_defs) then st
       else (basic_export_test modname export type_defs record_types ctor_exports st.1,
             S st.2))
    exports st.

(** The body of the loop of [main] for one file. *)
Definition generate_file (rs_text : string) (st : tree * nat) : result (tree * nat) :=
  bind (parse_module_name rs_text) (fun modname =>
  bind (parse_aivi_source rs_text) (fun aivi_src =>
    let type_defs := parse_type_defs aivi_src in
    let record_types := parse_record_type_aliases aivi_src in
    let class_defs := parse_class_defs aivi_src in
    let ctor_exports := parse_ctor_exports aivi_src in
    let st :=
      export_loop modname type_defs record_types class_defs ctor_exports
        (split_exports aivi_src) st in
    let fs :=
      fold_left (fun fs dom => domain_tests modname aivi_src dom fs)
        (parse_domain_defs aivi_src) st.1 in
    Ok (fs, st.2))).

(** The loop of [main] over the sorted files, each a name and its text.  An
    exception leaves the loop at once; what was written stays written. *)
Fixpoint main_loop (files : list (string * string)) (st : tree * nat)
    : tree * result nat :=
  match files with
  | [] => (st.1, Ok st.2)
  | (fname, rs_text) :: rest =>
      if String.eqb fname "mod.rs" then main_loop rest st
      else match generate_file rs_text st with
           | Raise e => (st.1, Raise e)
           | Ok st' => main_loop rest st'
           end
  end.

(** [sorted(STDLIB_SRC.glob(...))]: the entries of the directory whose name
    ends in [.rs], ordered by name.  The names of a directory are distinct. *)
Definition by_name (a b : string * string) : Prop := String.le a.1 b.1.
Global Instance by_name_dec : RelDecision by_name :=
  fun a b => String.le_dec a.1 b.1.
Definition glob_rs (entries : list (string * string)) : list (string * string) :=
  List.filter (fun e => endswith e.1 ".rs") entries.
Definition sorted_files (entries : list (string * string)) : list (string * string) :=
  merge_sort by_name (glob_rs entries).

Section Main.
(** The two fixed paths, as the text [str] gives for them; both derive from
    the location of the script. *)
Variables (STDLIB_SRC OUT : string).

(** [main]: [dir] is the listing of [STDLIB_SRC] in the order the file
    system iterates it, or [None] when the directory does not exist; [fs]
    is the output tree before the run.  The result is the tree after the
    run and either the lines printed or the exception that ended it. *)
Definition main (dir : option (list (string * string))) (fs : tree)
    : tree * result (list string) :=
  match dir with
  | None => (fs, Raise (SystemExit ("missing " +:+ STDLIB_SRC)))
  | Some entries =>
      match main_loop (sorted_files entries) (fs, 0) with
      | (fs', Ok generated) =>
          (fs', Ok ["generated " +:+ pretty generated +:+ " export tests under " +:+ OUT])
      | (fs', Raise e) => (fs', Raise e)
      end
  end.
End Main.

(** * Vocabulary of the statements

    Example inputs, and the definitions the statements below are phrased
    with. *)

(** ** Constructor exports *)

Definition column_type_src : string :=
  "export IntType, ColumnType" +:+ NL
  +:+ "ColumnType = IntType | BoolType | Varchar Int" +:+ NL.

(** ** Record shapes *)

Definition pair_src : string := "Pair = { p: (Int, Text), q: Int }".
Definition cfg_src : string := "Cfg = { size: { w: Int, h: Int }, name: Text }".

(** ** Tuples *)

Definition url_records : odict (odict string) :=
  [("Url", [("host", "Text"); ("port", "Int")])].

(** ** Suffix literals *)


(** ** Independence of the record model *)

Definition point_src_a : string :=
  "export origin, Point" +:+ NL +:+ "Point = { x: Int, y: Int }" +:+ NL.
Definition point_src_b : string :=
  "export origin, Point" +:+ NL +:+ "Point = { x: Text }" +:+ NL
  +:+ "Segment = { a: Point, b: Point }" +:+ NL.

(** ** Domain blocks that never close *)

(** The brace depth stays positive on every line of [lines], starting from
    [brace]. *)
Fixpoint stays_open (brace : Z) (lines : list string) : bool :=
  match lines with
  | [] => true
  | cur :: rest =>
      let brace := (brace + count_char "{" cur - count_char "}" cur)%Z in
      (0 <? brace)%Z && stays_open brace rest
  end.

Definition unclosed_src : string :=
  "export domain Duration" +:+ NL
  +:+ "domain Duration over Int = {" +:+ NL
  +:+ "  1ms = Millis 1" +:+ NL
  +:+ "  eom = { day: EndOfMonth" +:+ NL
  +:+ "export origin" +:+ NL.

(** ** The run as a list of writes *)

(** What the loops of [main] write does not depend on the tree they write
    into; these definitions give the files written, in order, and the count,
    from the inputs alone. *)
Definition export_files (modname : string) (type_defs : gset string)
    (record_types : odict (odict string)) (class_defs ctor_exports : gset string)
    (exports : list string) : list (path * string) :=
  List.flat_map
    (fun export =>
       if startswith export "domain " then []
       else if bool_decide (export ∈ class_defs) then []
       else match basic_export_file modname export type_defs record_types ctor_exports with
            | Some f => [f]
            | None => []
            end)
    exports.

Definition export_count (class_defs : gset string) (exports : list string) : nat :=
  length (List.filter
            (fun export => negb (startswith export "domain ")
                           && negb (bool_decide (export ∈ class_defs)))
            exports).

Definition file_output (rs_text : string) : result (list (path * string) * nat) :=
  bind (parse_module_name rs_text) (fun modname =>
  bind (parse_aivi_source rs_text) (fun aivi_src =>
    Ok (export_files modname (parse_type_defs aivi_src)
          (parse_record_type_aliases aivi_src) (parse_class_defs aivi_src)
          (parse_ctor_exports aivi_src) (split_exports aivi_src)
        ++ List.flat_map (domain_files modname aivi_src) (parse_domain_defs aivi_src),
        export_count (parse_class_defs aivi_src) (split_exports aivi_src)))).

Fixpoint loop_output (files : list (string * string)) : list (path * string) * result nat :=
  match files with
  | [] => ([], Ok 0)
  | (fname, rs_text) :: rest =>
      if String.eqb fname "mod.rs" then loop_output rest
      else match file_output rs_text with
           | Raise e => ([], Raise e)
           | Ok (ws, n) =>
               let '(ws', r) := loop_output rest in
               (ws ++ ws', match r with Ok n' => Ok (n + n') | Raise e => Raise e end)
           end
  end.

(** The last text written to [p], if any, decides what is found there. *)
Definition last_write (p : path) (acc : option string) (f : path * string) : option string :=
  if decide (f.1 = p) then Some f.2 else acc.

Definition rs_file (module_name aivi_source : string) : string :=
  "pub const MODULE_NAME: &str = " +:+ DQ +:+ module_name +:+ DQ +:+ ";" +:+ NL
  +:+ "pub const SOURCE: &str = r#" +:+ DQ +:+ aivi_source +:+ DQ +:+ "#;" +:+ NL.

Definition example_rs : string :=
  rs_file "aivi.example"
    ("export origin" +:+ NL +:+ "Point = { x: Int, y: Int }" +:+ NL
     +:+ "origin = { x: 0, y: 0 }" +:+ NL).

Definition duration_rs : string :=
  rs_file "aivi.duration"
    ("export domain Duration" +:+ NL +:+ "export Span" +:+ NL
     +:+ "Span = { millis: Int }" +:+ NL
     +:+ "domain Duration over Span = {" +:+ NL
     +:+ "  1ms = { millis: 1 }" +:+ NL
     +:+ "}" +:+ NL).

(** A file without the module-name marker *)
Definition broken_rs : string :=
  "pub const SOURCE: &str = r#" +:+ DQ +:+ "export lost" +:+ DQ +:+ "#;" +:+ NL.

Definition listing_a : list (string * string) :=
  [("example.rs", example_rs); ("mod.rs", "pub mod example;"); ("duration.rs", duration_rs)].
Definition listing_b : list (string * string) :=
  [("duration.rs", duration_rs); ("example.rs", example_rs); ("mod.rs", "pub mod example;")].

(** ** Structural failures *)


(** The files the loop of [main] processes: all but [mod.rs]. *)
Definition processed (files : list (string * string)) : list (string * string) :=
  List.filter (fun f => negb (String.eqb f.1 "mod.rs")) files.



(** ** Termination of the synthesizer *)








(** A chain of [n] records, each with one field of the type of the next *)
Definition chain_records (n : nat) : odict (odict string) :=
  List.map (fun k => ("R" +:+ pretty k, [("next", "R" +:+ pretty (S k))])) (List.seq 0 n).



(** ** The constructor pattern needs a backslash *)

Definition suffix_of (s' s : string) : Prop := exists pre, s = pre +:+ s'.

(** A continuation that fails on every suffix of the subject makes the match
    fail: the matcher only ever moves forward. *)
Definition fails_from (k : cont) (s : string) : Prop :=
  forall prev s' caps, suffix_of s' s -> k prev s' caps = None.

(** ** What a successful match consumed *)

Fixpoint all_chars (p : ascii -> bool) (s : string) : bool :=
  match s with
  | "" => true
  | String c s' => p c && all_chars p s'
  end.

(** [consumes r pre cs]: the pattern [r] can match the text [pre] exactly,
    recording the groups [cs] (the latest first). *)
Fixpoint consumes (r : regex) (pre : string) (cs : captures) : Prop :=
  match r with
  | Eps | Bos | Eos | WordB => pre = "" /\ cs = []
  | Lit l => pre = l /\ cs = []
  | Cls p => (exists c, pre = String c "" /\ p c = true) /\ cs = []
  | Star p => all_chars p pre = true /\ cs = []
  | Plus p | PlusLazy p => nonempty pre = true /\ all_chars p pre = true /\ cs = []
  | Cap n r1 => exists cs1, consumes r1 pre cs1 /\ cs = (n, pre) :: cs1
  | Cat r1 r2 =>
      exists a b c1 c2,
        pre = a +:+ b /\ consumes r1 a c1 /\ consumes r2 b c2 /\ cs = c2 ++ c1
  end.

(** ** The name predicates *)

(** A first character of the class [first] followed by identifier characters *)
Definition ident_shape (first : ascii -> bool) (s : string) : bool :=
  match s with
  | String c t => first c && all_chars is_ident t
  | "" => false
  end.

(** One or more digits followed by a letter and identifier characters *)
Definition template_shape (s : string) : Prop :=
  exists digits rest,
    s = digits +:+ rest /\ nonempty digits = true /\ all_chars is_digit digits = true
    /\ ident_shape is_letter rest = true.

(** The text [name] is [body], or [body] followed by one newline. *)
Definition up_to_newline (name body : string) : Prop :=
  name = body \/ name = body +:+ NL.

(** ** Sanitized segments *)

(** No two underscores in a row; [after_us] tells that an underscore comes
    just before the text. *)
Fixpoint no_double_us (s : string) (after_us : bool) : bool :=
  match s with
  | "" => true
  | String c s' =>
      if is_char "_" c then negb after_us && no_double_us s' true
      else no_double_us s' false
  end.

(** What [sanitize_segment] leaves is a fixed point of each of its steps. *)
Definition clean_segment (r : string) : Prop :=
  ident_shape is_letter r = true
  /\ no_double_us r false = true
  /\ rstrip_by (is_char "_") r = r.

(** ** Domain blocks that close *)

(** The brace depth after the lines [lines], starting from [brace] *)
Definition depth_after (brace : Z) (lines : list string) : Z :=
  fold_left (fun b cur => (b + count_char "{" cur - count_char "}" cur)%Z) lines brace.

Definition two_domains_src : string :=
  "domain Duration over Int = {" +:+ NL
  +:+ "  (+) : Int -> Delta -> Int" +:+ NL
  +:+ "  1ms = Millis { n: 1 }" +:+ NL
  +:+ "  1s = Seconds 1 }" +:+ NL
  +:+ "domain Angle over Float = {" +:+ NL
  +:+ "  1deg = Degrees 1.0" +:+ NL
  +:+ "  right = Degrees 90.0" +:+ NL
  +:+ "}" +:+ NL.

(** ** The names found in a domain block *)

Definition domain_def_shape (d : DomainDef) : Prop :=
  ident_shape is_letter (name d) = true
  /\ Forall (fun op => all_chars (not_char ")") op.1 = true) (operators d)
  /\ Forall (fun tpl => is_suffix_template tpl = true) (templates d)
  /\ Forall (fun lit => ident_shape is_lower lit = true) (named_literals d).

(** ** Where the files go *)

(** The path [p] is made of one or more directories [dirs] and the file name
    of [case], all of them identifiers. *)
Definition names_case (p : path) (dirs : list string) (case : string) : Prop :=
  p = dirs ++ [case +:+ ".aivi"]
  /\ dirs <> []
  /\ Forall (fun d => ident_shape is_letter d = true) dirs
  /\ ident_shape is_letter case = true.

(** The text at [p] opens with the header of the test module that [p]
    names. *)
Definition placed (p : path) (text : string) : Prop :=
  exists dirs case,
    names_case p dirs case
    /\ exists rest,
         text = header (join "." (["integrationTests"; "stdlib"] ++ dirs ++ [case])) +:+ rest.

(** ** The entries a run reads *)

(** The entries of the source directory that the loop of [main] reads *)
Definition is_source (e : string * string) : bool :=
  endswith e.1 ".rs" && negb (String.eqb e.1 "mod.rs").

(** ** What the extractor returns *)

(** The text [sub] occurs in [s] at index [i]. *)
Definition occurs_at (sub s : string) (i : nat) : Prop :=
  exists before after, s = before +:+ sub +:+ after /\ String.length before = i.

(** ** The record model *)

(** The keys of a dictionary are distinct and every entry satisfies [P]. *)
Definition od_shape {V : Type} (P : string * V -> Prop) (d : odict V) : Prop :=
  NoDup (d.*1) /\ Forall P d.

(** A field: a lower-case identifier and a type without surrounding white
    space; a record: a capitalized identifier and its fields *)
Definition field_shape (f : string * string) : Prop :=
  ident_shape is_lower f.1 = true /\ strip f.2 = f.2.
Definition record_shape (r : string * odict string) : Prop :=
  ident_shape is_upper r.1 = true /\ od_shape field_shape r.2.

(** ** The layout of a type expression *)

(** A word of [split]: one character or more, none of them white space *)
Definition nonspace (c : ascii) : bool := negb (isspace c).
Definition word (w : string) : bool := nonempty w && all_chars nonspace w.

(** ** The splitter on flat text *)

(** No character of the text opens or closes a bracket. *)
Definition flat (text : string) : bool :=
  all_chars (fun ch => negb (opens_bracket ch || closes_bracket ch)) text.

(** The pieces of a split without a last piece that is empty *)
Definition drop_empty_tail (pieces : list string) : list string :=
  if nonempty (List.last pieces "") then pieces else List.removelast pieces.

(** ** Writes that the file system refuses *)




(** ** Top-level commas *)

(** The characters that open and that close a bracket *)
Definition opening : list ascii := ["("%char; "["%char; "{"%char].
Definition closing : list ascii := [")"%char; "]"%char; "}"%char].

(** [balanced top text]: the brackets of [text], of the three kinds alike,
    are matched, and when [top] holds no comma of [text] stands outside all
    of them. *)
Inductive balanced (top : bool) : string -> Prop :=
| balanced_nil : balanced top ""
| balanced_char (ch : ascii) (s : string) :
    ~ In ch opening -> ~ In ch closing ->
    (top = true -> ch <> ","%char) ->
    balanced top s -> balanced top (String ch s)
| balanced_group (o c : ascii) (inner s : string) :
    In o opening -> In c closing ->
    balanced false inner -> balanced top s ->
    balanced top (String o (inner +:+ String c s)).

(** * Properties *)

(** ** The synthesizer, one call at a time *)

Lemma sample_eq (fuel : nat) (ty : string) (rt : odict (odict string)) (dt dn : list string) :
  sample_expr_for_type (S fuel) ty rt dt dn =
  let ty := normalize ty in
  match od_get ty rt with
  | Some fields =>
      match map_opt (fun '(field, field_ty) =>
                       match sample_expr_for_type fuel field_ty rt dt dn with
                       | None => None
                       | Some expr => Some (field +:+ ": " +:+ or_unit expr)
                       end) fields with
      | None => None
      | Some parts => Some (Some ("{ " +:+ join ", " parts +:+ " }"))
      end
  | None =>
      if String.eqb ty "Int" then Some (Some "1")
      else if String.eqb ty "Float" then Some (Some "1.0")
      else if String.eqb ty "Bool" then Some (Some "True")
      else if String.eqb ty "Text" then Some (Some (DQ +:+ "x" +:+ DQ))
      else if String.eqb ty "Char" then Some (Some (SQ +:+ "x" +:+ SQ))
      else if String.eqb ty "Unit" then Some (Some "Unit")
      else if String.eqb ty "Bytes" then Some (Some "bytes.empty")
      else if startswith ty "Option " then Some (Some "None")
      else if startswith ty "List " then Some (Some "[]")
      else
        let late := Some (sample_late_rules ty dt dn) in
        if startswith ty "(" && endswith ty ")" then
          let items := _split_top_level_commas (strip (slice_1_m1 ty)) in
          if (2 <=? List.length items)%nat then
            match map_opt (fun item =>
                             match sample_expr_for_type fuel item rt dt dn with
                             | None => None
                             | Some expr => Some (or_unit expr)
                             end) items with
            | None => None
            | Some exprs => Some (Some ("(" +:+ join ", " exprs +:+ ")"))
            end
          else late
        else late
  end.
Proof. reflexivity. Qed.

(** One step of the synthesizer on a closed type expression that is not a
    record name ([H] says so): unfold, normalise, look the name up, compute. *)
Ltac sample_step H :=
  rewrite sample_eq; cbv -[sample_expr_for_type od_get odict];
  rewrite H by (vm_compute; tauto); cbv -[sample_expr_for_type od_get odict].

(** ** Constructor exports *)

(** C1, where the code departs from the specification.  On the ADT line that
    the comment of [parse_ctor_exports] gives as its example the pattern does
    not match, because it asks for a literal backslash after the type name:
    the constructor set is empty, and the export [IntType] gets the
    type-reference test ([Ref = IntType], no [subject] binding) exactly as
    the type name [ColumnType] does. *)
Theorem C1_adt_constructors_not_recorded :
  re_match ctor_re "ColumnType = IntType | BoolType | Varchar Int" = None
  /\ parse_ctor_exports column_type_src = ∅
  /\ split_exports column_type_src = ["IntType"; "ColumnType"]
  /\ basic_export_file "aivi.database" "IntType"
       (parse_type_defs column_type_src) (parse_record_type_aliases column_type_src)
       (parse_ctor_exports column_type_src)
     = Some (["aivi"; "database"; "IntType.aivi"],
             header "integrationTests.stdlib.aivi.database.IntType"
             +:+ NL +:+ "use aivi" +:+ NL +:+ use_testlib
             +:+ NL +:+ use_all "aivi.database"
             +:+ NL +:+ "Ref = IntType" +:+ NL +:+ smoke_ref)
  /\ basic_export_file "aivi.database" "ColumnType"
       (parse_type_defs column_type_src) (parse_record_type_aliases column_type_src)
       (parse_ctor_exports column_type_src)
     = Some (["aivi"; "database"; "ColumnType.aivi"],
             header "integrationTests.stdlib.aivi.database.ColumnType"
             +:+ NL +:+ "use aivi" +:+ NL +:+ use_testlib
             +:+ NL +:+ use_all "aivi.database"
             +:+ NL +:+ "Ref = ColumnType" +:+ NL +:+ smoke_ref).
Proof. repeat split; vm_compute; reflexivity. Qed.

(** ** Record shapes *)

(** C4, where the code departs from the specification.  The brace body of a
    record line is split on every comma, not on the top-level ones: a
    tuple-typed field loses its type, and a field whose type is itself a
    braced record adds fields of its own, so the literal synthesized for
    [Cfg] has three fields where two are declared.  The splitter of the tuple
    rule, on the same bodies, gives the two declared entries. *)
Theorem C4_record_body_split_on_every_comma :
  parse_record_type_aliases pair_src = [("Pair", [("p", "(Int"); ("q", "Int")])]
  /\ sample_expr_for_type 2 "Pair" (parse_record_type_aliases pair_src) [] []
     = Some (Some "{ p: Unit, q: 1 }")
  /\ parse_record_type_aliases cfg_src
     = [("Cfg", [("size", "{ w: Int"); ("h", "Int }"); ("name", "Text")])]
  /\ sample_expr_for_type 2 "Cfg" (parse_record_type_aliases cfg_src) [] []
     = Some (Some ("{ size: Unit, h: Unit, name: " +:+ DQ +:+ "x" +:+ DQ +:+ " }"))
  /\ _split_top_level_commas "p: (Int, Text), q: Int" = ["p: (Int, Text)"; "q: Int"]
  /\ _split_top_level_commas "size: { w: Int, h: Int }, name: Text"
     = ["size: { w: Int, h: Int }"; "name: Text"].
Proof. repeat split; vm_compute; reflexivity. Qed.

(** ** Tuples *)

Lemma open_paren_first (s : string) :
  startswith s "(" = true -> exists rest, s = String "(" rest.
Proof.
  destruct s as [|c s]; simpl; [discriminate|].
  destruct (Ascii.eqb_spec c "(") as [->|]; [eauto | discriminate].
Qed.

(** The tuple rule, for any type expression: a call on a parenthesized type
    that is not a record name and has two or more top-level components is
    made of the calls on the components. *)
Lemma sample_tuple_rule (fuel : nat) (ty : string) (rt : odict (odict string))
    (dt dn : list string) :
  od_get (normalize ty) rt = None ->
  startswith (normalize ty) "(" = true ->
  endswith (normalize ty) ")" = true ->
  2 <= length (_split_top_level_commas (strip (slice_1_m1 (normalize ty)))) ->
  sample_expr_for_type (S fuel) ty rt dt dn =
  match map_opt (fun item =>
                   match sample_expr_for_type fuel item rt dt dn with
                   | None => None
                   | Some expr => Some (or_unit expr)
                   end)
          (_split_top_level_commas (strip (slice_1_m1 (normalize ty)))) with
  | None => None
  | Some exprs => Some (Some ("(" +:+ join ", " exprs +:+ ")"))
  end.
Proof.
  intros Hrec Hopen Hclose Hlen. rewrite sample_eq. cbv zeta.
  rewrite Hrec, Hopen, Hclose, (proj2 (Nat.leb_le _ _) Hlen).
  destruct (open_paren_first _ Hopen) as [rest ->]. reflexivity.
Qed.

(** ** The delta type *)

(** C7.  On the exact type [Delta], when no record shape bears that name (the
    record rule comes first), the synthesizer returns the first suffix
    template of the domain with its leading digits replaced by [2], else the
    first named literal, else [None]. *)
Theorem C7_delta_from_first_template_or_literal
    (rt : odict (odict string)) (dt dn : list string) (fuel : nat) :
  od_get "Delta" rt = None ->
  sample_expr_for_type (S fuel) "Delta" rt dt dn =
  Some match dt with
       | tpl :: _ => Some ("2" +:+ strip_leading_digits tpl)
       | [] => match dn with lit :: _ => Some lit | [] => None end
       end.
Proof.
  intros H. sample_step H. reflexivity.
Qed.

Lemma C7_delta_from_first_template_or_literal_witness :
  sample_expr_for_type 1 "Delta" [("Url", [("host", "Text")])] ["10ms"; "1s"] ["eom"]
  = Some (Some "2ms")
  /\ sample_expr_for_type 1 "Delta" [] [] ["eom"; "bom"] = Some (Some "eom")
  /\ sample_expr_for_type 1 "Delta" [] [] [] = Some None.
Proof.
  split; [|split].
  - apply (C7_delta_from_first_template_or_literal
             [("Url", [("host", "Text")])] ["10ms"; "1s"] ["eom"] 0). reflexivity.
  - apply (C7_delta_from_first_template_or_literal [] [] ["eom"; "bom"] 0). reflexivity.
  - apply (C7_delta_from_first_template_or_literal [] [] [] 0). reflexivity.
Defined.

(** ** Suffix literals *)

Lemma append_assoc (a b c : string) : (a +:+ b) +:+ c = a +:+ b +:+ c.
Proof.
  induction a as [|x a IH]; [reflexivity|].
  change (String x ((a +:+ b) +:+ c) = String x (a +:+ b +:+ c)).
  f_equal. exact IH.
Qed.










(** ** Independence of the record model *)

(** C9.  The file written for a plain export does not depend on the type
    names and record shapes parsed from the module: [basic_export_file] gives
    the same path and text whatever they are, and two module sources with the
    same exports, classes and constructors give the same plain-export files
    (and, with the same domain blocks, the same files altogether).  The
    synthesizer is not called on the way. *)
Theorem C9_plain_exports_independent_of_record_model :
  (forall modname export_name td1 td2 rt1 rt2 ctor_exports,
     basic_export_file modname export_name td1 rt1 ctor_exports
     = basic_export_file modname export_name td2 rt2 ctor_exports)
  /\ (forall modname src1 src2 st,
        split_exports src1 = split_exports src2 ->
        parse_class_defs src1 = parse_class_defs src2 ->
        parse_ctor_exports src1 = parse_ctor_exports src2 ->
        export_loop modname (parse_type_defs src1) (parse_record_type_aliases src1)
          (parse_class_defs src1) (parse_ctor_exports src1) (split_exports src1) st
        = export_loop modname (parse_type_defs src2) (parse_record_type_aliases src2)
            (parse_class_defs src2) (parse_ctor_exports src2) (split_exports src2) st)
  /\ (forall rs1 rs2 modname src1 src2 st,
        parse_module_name rs1 = Ok modname -> parse_module_name rs2 = Ok modname ->
        parse_aivi_source rs1 = Ok src1 -> parse_aivi_source rs2 = Ok src2 ->
        split_exports src1 = split_exports src2 ->
        parse_class_defs src1 = parse_class_defs src2 ->
        parse_ctor_exports src1 = parse_ctor_exports src2 ->
        parse_domain_defs src1 = parse_domain_defs src2 ->
        generate_file rs1 st = generate_file rs2 st).
Proof.
  assert (Hfile : forall modname export_name td1 td2 rt1 rt2 ctor_exports,
             basic_export_file modname export_name td1 rt1 ctor_exports
             = basic_export_file modname export_name td2 rt2 ctor_exports)
    by reflexivity.
  assert (Hloop : forall modname td1 td2 rt1 rt2 cd ce exports st,
             export_loop modname td1 rt1 cd ce exports st
             = export_loop modname td2 rt2 cd ce exports st).
  { intros modname td1 td2 rt1 rt2 cd ce exports. unfold export_loop.
    induction exports as [|e exports IH]; intros st; simpl; [reflexivity|].
    unfold basic_export_test. rewrite (Hfile modname e td1 td2 rt1 rt2 ce). apply IH. }
  split; [exact Hfile|]. split.
  - intros modname src1 src2 st He Hc Hk. rewrite He, Hc, Hk. apply Hloop.
  - intros rs1 rs2 modname src1 src2 st Hm1 Hm2 Hs1 Hs2 He Hc Hk Hd.
    unfold generate_file. rewrite Hm1, Hm2, Hs1, Hs2. simpl.
    rewrite He, Hc, Hk, Hd.
    rewrite (Hloop modname (parse_type_defs src1) (parse_type_defs src2)
               (parse_record_type_aliases src1) (parse_record_type_aliases src2)).
    reflexivity.
Qed.

Lemma C9_plain_exports_independent_of_record_model_witness :
  parse_record_type_aliases point_src_a <> parse_record_type_aliases point_src_b
  /\ parse_type_defs point_src_a <> parse_type_defs point_src_b
  /\ export_loop "aivi.geometry" (parse_type_defs point_src_a)
       (parse_record_type_aliases point_src_a) (parse_class_defs point_src_a)
       (parse_ctor_exports point_src_a) (split_exports point_src_a) (∅, 0)
     = export_loop "aivi.geometry" (parse_type_defs point_src_b)
         (parse_record_type_aliases point_src_b) (parse_class_defs point_src_b)
         (parse_ctor_exports point_src_b) (split_exports point_src_b) (∅, 0)
  /\ generate_file (rs_file "aivi.geometry" point_src_a) (∅, 0)
     = generate_file (rs_file "aivi.geometry" point_src_b) (∅, 0).
Proof.
  split; [|split; [|split]].
  - vm_compute. discriminate.
  - intros E. assert (H : "Segment" ∈ parse_type_defs point_src_a).
    { rewrite E. vm_compute. reflexivity. }
    vm_compute in H. discriminate H.
  - destruct C9_plain_exports_independent_of_record_model as (_ & H & _).
    apply (H "aivi.geometry" point_src_a point_src_b (∅, 0)); vm_compute; reflexivity.
  - destruct C9_plain_exports_independent_of_record_model as (_ & _ & H).
    apply (H (rs_file "aivi.geometry" point_src_a) (rs_file "aivi.geometry" point_src_b)
             "aivi.geometry" point_src_a point_src_b (∅, 0));
      vm_compute; reflexivity.
Defined.

(** ** Domain blocks that never close *)

Lemma take_block_length (lines : list string) (brace : Z) (block : list string) :
  length (take_block lines brace block).2 <= length lines.
Proof.
  revert brace block.
  induction lines as [|cur rest IH]; intros brace block; simpl; [lia|].
  destruct (0 <? brace)%Z; simpl; [|lia].
  specialize (IH (brace + count_char "{" cur - count_char "}" cur)%Z
                 (if (0 <? brace + count_char "{" cur - count_char "}" cur)%Z
                  then block ++ [cur] else block)).
  lia.
Qed.

Lemma parse_domain_lines_skip (line : string) (rest : list string) (out : list DomainDef) :
  re_match domain_re line = None ->
  parse_domain_lines (line :: rest) out = parse_domain_lines rest out.
Proof. intros H. simp parse_domain_lines. rewrite H. reflexivity. Qed.

Lemma parse_domain_lines_open (line : string) (rest : list string) (out : list DomainDef)
    (m : captures) :
  re_match domain_re line = Some m ->
  parse_domain_lines (line :: rest) out
  = parse_domain_lines (take_block rest 1 []).2
      (out ++ [domain_of_block (group 1 m) (strip (group 2 m)) (take_block rest 1 []).1]).
Proof. intros H. simp parse_domain_lines. rewrite H. reflexivity. Qed.

Lemma take_block_stays_open (body : list string) (brace : Z) (block : list string) :
  (0 < brace)%Z -> stays_open brace body = true ->
  take_block body brace block = (block ++ body, []).
Proof.
  revert brace block. induction body as [|cur rest IH]; intros brace block Hb Hopen; simpl.
  - rewrite app_nil_r. reflexivity.
  - simpl in Hopen. apply andb_prop in Hopen as [Hpos Hrest].
    rewrite (proj2 (Z.ltb_lt 0 brace) Hb), Hpos.
    rewrite (IH _ _ (proj1 (Z.ltb_lt _ _) Hpos) Hrest), <- app_assoc. reflexivity.
Qed.

Lemma parse_domain_lines_length (lines : list string) (out : list DomainDef) :
  length (parse_domain_lines lines out) <= length out + length lines.
Proof.
  remember (length lines) as n eqn:Hn. revert lines out Hn.
  induction n as [n IH] using lt_wf_ind. intros lines out Hn.
  destruct lines as [|line rest].
  - simp parse_domain_lines. lia.
  - destruct (re_match domain_re line) as [m|] eqn:E.
    + rewrite (parse_domain_lines_open _ _ _ _ E).
      pose proof (take_block_length rest 1 []) as Hlen.
      simpl in Hn.
      pose proof (IH (length (take_block rest 1 []).2) ltac:(lia) _
                    (out ++ [domain_of_block (group 1 m) (strip (group 2 m))
                               (take_block rest 1 []).1]) eq_refl) as H.
      rewrite length_app in H. simpl in H. lia.
    + rewrite (parse_domain_lines_skip _ _ _ E). simpl in Hn.
      pose proof (IH (length rest) ltac:(lia) rest out eq_refl). lia.
Qed.

(** C10.  [parse_domain_defs] is a total function (its recursion is on the
    number of lines left, which each pass of either loop lowers), and it
    yields at most one definition per line.  When a block is opened by a
    header line and the brace depth never returns to zero on the lines after
    it, the block is all of those lines, exactly one definition is added for
    it, and the scan ends there. *)
Theorem C10_unclosed_domain_block
    (pre : list string) (hdr : string) (body : list string) (m : captures)
    (out : list DomainDef) :
  Forall (fun line => re_match domain_re line = None) pre ->
  re_match domain_re hdr = Some m ->
  stays_open 1 body = true ->
  parse_domain_lines (pre ++ hdr :: body) out
    = out ++ [domain_of_block (group 1 m) (strip (group 2 m)) body]
  /\ take_block body 1 [] = (body, [])
  /\ forall aivi_source,
       length (parse_domain_defs aivi_source) <= length (splitlines aivi_source).
Proof.
  intros Hpre Hhdr Hopen.
  pose proof (take_block_stays_open body 1 [] ltac:(lia) Hopen) as Hblock.
  split; [|split].
  - induction Hpre as [|line pre Hline _ IH]; simpl.
    + rewrite (parse_domain_lines_open _ _ _ _ Hhdr), Hblock. simpl.
      simp parse_domain_lines. reflexivity.
    + rewrite (parse_domain_lines_skip _ _ _ Hline). exact IH.
  - exact Hblock.
  - intros src. unfold parse_domain_defs.
    pose proof (parse_domain_lines_length (splitlines src) []). simpl in *. lia.
Qed.

Lemma C10_unclosed_domain_block_witness :
  parse_domain_defs unclosed_src
  = [mkDomainDef "Duration" "Int" [] ["1ms"] []].
Proof.
  refine (proj1 (C10_unclosed_domain_block
            ["export domain Duration"] "domain Duration over Int = {"
            ["  1ms = Millis 1"; "  eom = { day: EndOfMonth"; "export origin"]
            [(2, "Int"); (1, "Duration")] [] _ _ _)).
  - repeat constructor.
  - reflexivity.
  - reflexivity.
Defined.

(** ** The run as a list of writes *)

Lemma write_all_app (ws1 ws2 : list (path * string)) (fs : tree) :
  write_all (ws1 ++ ws2) fs = write_all ws2 (write_all ws1 fs).
Proof. unfold write_all. apply fold_left_app. Qed.

Lemma export_loop_spec (modname : string) (td : gset string) (rt : odict (odict string))
    (cd ce : gset string) (exports : list string) (fs : tree) (g : nat) :
  export_loop modname td rt cd ce exports (fs, g)
  = (write_all (export_files modname td rt cd ce exports) fs, g + export_count cd exports).
Proof.
  revert fs g. unfold export_loop, export_files, export_count.
  induction exports as [|e exports IH]; intros fs g; simpl.
  - f_equal. lia.
  - destruct (startswith e "domain "); simpl; [apply IH|].
    destruct (bool_decide (e ∈ cd)); simpl; [apply IH|].
    rewrite IH. unfold basic_export_test.
    destruct (basic_export_file modname e td rt ce) as [[p body]|]; simpl;
      rewrite ?write_all_app; f_equal; lia.
Qed.

Lemma domain_loop_spec (modname aivi_src : string) (doms : list DomainDef) (fs : tree) :
  fold_left (fun fs dom => domain_tests modname aivi_src dom fs) doms fs
  = write_all (List.flat_map (domain_files modname aivi_src) doms) fs.
Proof.
  revert fs. induction doms as [|d doms IH]; intros fs; simpl; [reflexivity|].
  rewrite IH, write_all_app. reflexivity.
Qed.

Lemma generate_file_spec (rs_text : string) (fs : tree) (g : nat) :
  generate_file rs_text (fs, g)
  = match file_output rs_text with
    | Ok (ws, n) => Ok (write_all ws fs, g + n)
    | Raise e => Raise e
    end.
Proof.
  unfold generate_file, file_output.
  destruct (parse_module_name rs_text) as [modname|e]; simpl; [|reflexivity].
  destruct (parse_aivi_source rs_text) as [src|e]; simpl; [|reflexivity].
  rewrite export_loop_spec. simpl. rewrite domain_loop_spec, write_all_app. reflexivity.
Qed.

Lemma main_loop_spec (files : list (string * string)) (fs : tree) (g : nat) :
  main_loop files (fs, g)
  = (write_all (loop_output files).1 fs,
     match (loop_output files).2 with Ok n => Ok (g + n) | Raise e => Raise e end).
Proof.
  revert fs g. induction files as [|[fname rs_text] rest IH]; intros fs g; simpl.
  - do 2 f_equal. lia.
  - destruct (String.eqb fname "mod.rs"); [apply IH|].
    rewrite generate_file_spec.
    destruct (file_output rs_text) as [[ws n]|e]; [|reflexivity].
    rewrite IH. destruct (loop_output rest) as [ws' [n'|e]]; simpl;
      rewrite write_all_app; do 2 f_equal; lia.
Qed.

Lemma write_all_lookup (ws : list (path * string)) (fs : tree) (p : path) :
  write_all ws fs !! p = fold_left (last_write p) ws (fs !! p).
Proof.
  revert fs. induction ws as [|[q t] ws IH]; intros fs; simpl; [reflexivity|].
  unfold write_all in *. simpl. rewrite IH. f_equal.
  unfold write, last_write. simpl. rewrite lookup_insert. reflexivity.
Qed.

Lemma last_write_fold (p : path) (ws : list (path * string)) (acc : option string) :
  fold_left (last_write p) ws acc
  = match fold_left (last_write p) ws None with Some t => Some t | None => acc end.
Proof.
  revert acc. induction ws as [|f ws IH]; intros acc; simpl; [reflexivity|].
  rewrite (IH (last_write p acc f)), (IH (last_write p None f)).
  destruct (fold_left (last_write p) ws None); [reflexivity|].
  unfold last_write. destruct (decide (f.1 = p)); reflexivity.
Qed.

Lemma write_all_idempotent (ws : list (path * string)) (fs : tree) :
  write_all ws (write_all ws fs) = write_all ws fs.
Proof.
  apply map_eq. intros p. rewrite !write_all_lookup.
  rewrite (last_write_fold p ws (fold_left _ _ _)), (last_write_fold p ws (fs !! p)).
  destruct (fold_left (last_write p) ws None); reflexivity.
Qed.

Lemma write_all_origin (ws : list (path * string)) (fs : tree) (p : path) (t : string) :
  write_all ws fs !! p = Some t -> fs !! p = Some t \/ In (p, t) ws.
Proof.
  revert fs. induction ws as [|[q u] ws IH]; intros fs; simpl; [auto|].
  intros H. apply IH in H as [H|H]; [|auto].
  unfold write in H. simpl in H. rewrite lookup_insert in H.
  destruct (decide (q = p)) as [->|]; [|auto].
  injection H as ->. auto.
Qed.

(** Sorting by name gives the same list for every order of the entries. *)
Global Instance by_name_total : Total by_name.
Proof. intros a b. unfold by_name. apply (total String.le). Qed.
Global Instance by_name_trans : Transitive by_name.
Proof. intros a b c. unfold by_name. apply (transitivity (R := String.le)). Qed.

Lemma same_name_same_entry (l : list (string * string)) (x y : string * string) :
  NoDup (l.*1) -> x ∈ l -> y ∈ l -> x.1 = y.1 -> x = y.
Proof.
  induction l as [|z l IH]; simpl; intros Hnd Hx Hy E; [inv Hx|].
  apply NoDup_cons in Hnd as [Hz Hnd].
  apply elem_of_cons in Hx as [->|Hx], Hy as [->|Hy]; auto.
  - exfalso. apply Hz. rewrite E. apply list_elem_of_fmap. exists y. auto.
  - exfalso. apply Hz. rewrite <- E. apply list_elem_of_fmap. exists x. auto.
Qed.

Lemma glob_rs_elem (entries : list (string * string)) (x : string * string) :
  x ∈ glob_rs entries -> x ∈ entries.
Proof.
  unfold glob_rs. rewrite !list_elem_of_In, filter_In. tauto.
Qed.

Lemma glob_rs_Permutation (l1 l2 : list (string * string)) :
  l1 ≡ₚ l2 -> glob_rs l1 ≡ₚ glob_rs l2.
Proof.
  unfold glob_rs. induction 1; simpl.
  - reflexivity.
  - destruct (endswith x.1 ".rs"); [constructor|]; assumption.
  - destruct (endswith x.1 ".rs"), (endswith y.1 ".rs"); try reflexivity.
    apply perm_swap.
  - etransitivity; eassumption.
Qed.

Lemma sorted_files_Permutation (entries1 entries2 : list (string * string)) :
  NoDup (entries1.*1) -> entries1 ≡ₚ entries2 ->
  sorted_files entries1 = sorted_files entries2.
Proof.
  intros Hnd Hperm. unfold sorted_files.
  apply (StronglySorted_unique_strong by_name).
  - intros x1 x2 H1 H2 R12 R21.
    apply (same_name_same_entry entries1); [exact Hnd| | |].
    + apply glob_rs_elem. rewrite <- (merge_sort_Permutation by_name). exact H1.
    + rewrite Hperm. apply glob_rs_elem.
      rewrite <- (merge_sort_Permutation by_name). exact H2.
    + apply (anti_symm String.le); assumption.
  - apply StronglySorted_merge_sort; apply _.
  - apply StronglySorted_merge_sort; apply _.
  - rewrite !merge_sort_Permutation. apply glob_rs_Permutation, Hperm.
Qed.

Lemma loop_output_origin (files : list (string * string)) (f : path * string) :
  In f (loop_output files).1 ->
  exists fname rs_text ws n,
    In (fname, rs_text) files /\ file_output rs_text = Ok (ws, n) /\ In f ws.
Proof.
  induction files as [|[fname rs_text] rest IH]; simpl; [tauto|].
  destruct (String.eqb fname "mod.rs").
  { intros H. destruct (IH H) as (a & b & ws & n & ? & ? & ?). exists a, b, ws, n. auto. }
  destruct (file_output rs_text) as [[ws n]|e] eqn:E; simpl; [|tauto].
  destruct (loop_output rest) as [ws' r]. simpl in *. intros H.
  apply in_app_or in H as [H|H].
  - exists fname, rs_text, ws, n. auto.
  - destruct (IH H) as (a & b & ws0 & n0 & ? & ? & ?). exists a, b, ws0, n0. auto.
Qed.

Lemma main_eq (STDLIB_SRC OUT : string) (entries : list (string * string)) (fs : tree) :
  main STDLIB_SRC OUT (Some entries) fs
  = (write_all (loop_output (sorted_files entries)).1 fs,
     match (loop_output (sorted_files entries)).2 with
     | Ok n => Ok ["generated " +:+ pretty n +:+ " export tests under " +:+ OUT]
     | Raise e => Raise e
     end).
Proof.
  unfold main. rewrite main_loop_spec.
  destruct (loop_output (sorted_files entries)).2; reflexivity.
Qed.

(** C2.  The listing of the source directory is sorted by name before it is
    used, so the result of a run (the output tree and what is printed or
    raised) is the same for every order in which the file system lists the
    same entries; a second run over the tree the first one left changes
    nothing; and every file found in the tree after a run that was not there
    before has the path and the text that [basic_export_file] gives for an
    export of some module, or that [domain_files] gives for one of its domain
    blocks. *)
Theorem C2_deterministic_output
    (STDLIB_SRC OUT : string) (entries1 entries2 : list (string * string)) (fs : tree) :
  NoDup (entries1.*1) ->
  entries1 ≡ₚ entries2 ->
  main STDLIB_SRC OUT (Some entries1) fs = main STDLIB_SRC OUT (Some entries2) fs
  /\ main STDLIB_SRC OUT (Some entries1) (main STDLIB_SRC OUT (Some entries1) fs).1
     = main STDLIB_SRC OUT (Some entries1) fs
  /\ (forall p text,
        (main STDLIB_SRC OUT (Some entries1) fs).1 !! p = Some text ->
        fs !! p = Some text
        \/ exists fname rs_text modname aivi_src,
             In (fname, rs_text) entries1
             /\ parse_module_name rs_text = Ok modname
             /\ parse_aivi_source rs_text = Ok aivi_src
             /\ ((exists export,
                    In export (split_exports aivi_src)
                    /\ basic_export_file modname export (parse_type_defs aivi_src)
                         (parse_record_type_aliases aivi_src) (parse_ctor_exports aivi_src)
                       = Some (p, text))
                 \/ (exists dom,
                       In dom (parse_domain_defs aivi_src)
                       /\ In (p, text) (domain_files modname aivi_src dom)))).
Proof.
  intros Hnd Hperm. split; [|split].
  - rewrite !main_eq, (sorted_files_Permutation _ _ Hnd Hperm). reflexivity.
  - rewrite !main_eq. cbn [fst]. rewrite write_all_idempotent. reflexivity.
  - intros p text. rewrite main_eq. cbn [fst]. intros H.
    apply write_all_origin in H as [H|H]; [left; exact H|right].
    apply loop_output_origin in H as (fname & rs_text & ws & n & Hin & Hout & Hf).
    unfold file_output in Hout.
    destruct (parse_module_name rs_text) as [modname|] eqn:Hm; [|discriminate].
    destruct (parse_aivi_source rs_text) as [src|] eqn:Hs; [|discriminate].
    simpl in Hout. injection Hout as <- <-.
    exists fname, rs_text, modname, src. split; [|split; [exact Hm|split; [exact Hs|]]].
    + apply list_elem_of_In, glob_rs_elem.
      rewrite <- (merge_sort_Permutation by_name). apply list_elem_of_In. exact Hin.
    + apply in_app_or in Hf as [Hf|Hf].
      * left. unfold export_files in Hf. apply in_flat_map in Hf as (e & He & Hf).
        exists e. split; [exact He|].
        destruct (startswith e "domain "); [destruct Hf|].
        destruct (bool_decide _); [destruct Hf|].
        destruct (basic_export_file _ _ _ _ _) as [f|]; [|destruct Hf].
        destruct Hf as [->|[]]. reflexivity.
      * right. apply in_flat_map in Hf as (d & Hd & Hf). exists d. auto.
Qed.

Lemma C2_deterministic_output_witness :
  main "/repo/crates/aivi/src/stdlib" "/repo/integration-tests/stdlib" (Some listing_a) ∅
  = main "/repo/crates/aivi/src/stdlib" "/repo/integration-tests/stdlib" (Some listing_b) ∅.
Proof.
  refine (proj1 (C2_deterministic_output _ _ listing_a listing_b ∅ _ _)).
  - apply (bool_decide_unpack _). vm_compute. exact I.
  - symmetry.
    apply (Permutation_cons_append
             [("example.rs", example_rs); ("mod.rs", "pub mod example;")]
             ("duration.rs", duration_rs)).
Defined.

(** ** Structural failures *)




Lemma main_loop_processed (files : list (string * string)) (st : tree * nat) :
  main_loop files st = main_loop (processed files) st.
Proof.
  revert st. induction files as [|[fname rs_text] rest IH]; intros st; simpl; [reflexivity|].
  destruct (String.eqb fname "mod.rs") eqn:E; simpl; [apply IH|].
  rewrite E. destruct (generate_file rs_text st); [apply IH|reflexivity].
Qed.

Lemma processed_idem (files : list (string * string)) :
  processed (processed files) = processed files.
Proof.
  unfold processed. induction files as [|f rest IH]; simpl; [reflexivity|].
  destruct (negb (String.eqb f.1 "mod.rs")) eqn:E; simpl; rewrite ?E, IH; reflexivity.
Qed.


(** ** Termination of the synthesizer *)

Lemma length_append (a b : string) :
  String.length (a +:+ b) = String.length a + String.length b.
Proof.
  induction a as [|x a IH]; [reflexivity|].
  change (S (String.length (a +:+ b)) = S (String.length a) + String.length b). lia.
Qed.













Lemma od_get_In {V : Type} (k : string) (d : odict V) (v : V) :
  od_get k d = Some v -> In (k, v) d.
Proof.
  induction d as [|[k' v'] d IH]; simpl; [discriminate|].
  destruct (String.eqb_spec k' k) as [->|]; [intros [= ->]; auto | auto].
Qed.













(** A model without cycles whose depth is above the thousand frames that the
    interpreter allows when the limit is left as it is: the call on the first
    record of a chain of a thousand returns with a thousand and one nested
    calls, and with a thousand it raises. *)
Lemma chain_deeper_than_default_limit :
  sample_expr_for_type 1000 "R0" (chain_records 1000) [] [] = None
  /\ exists r, sample_expr_for_type 1001 "R0" (chain_records 1000) [] [] = Some (Some r).
Proof.
  split.
  - vm_compute. reflexivity.
  - eexists. vm_compute. reflexivity.
Qed.

(** ** The constructor pattern needs a backslash *)

Lemma suffix_of_refl (s : string) : suffix_of s s.
Proof. exists "". reflexivity. Qed.

Lemma suffix_of_trans (a b c : string) : suffix_of a b -> suffix_of b c -> suffix_of a c.
Proof.
  intros [p ->] [q ->]. exists (q +:+ p). rewrite append_assoc. reflexivity.
Qed.

Lemma suffix_of_cons (c : ascii) (s' s : string) : suffix_of s' s -> suffix_of s' (String c s).
Proof. intros [pre ->]. exists (String c pre). reflexivity. Qed.

Lemma lit_match_suffix (l s : string) (prev prev' : option ascii) (s' : string) :
  lit_match l s prev = Some (prev', s') -> suffix_of s' s.
Proof.
  revert s prev. induction l as [|a l IH]; intros s prev; simpl.
  - intros [= _ ->]. apply suffix_of_refl.
  - destruct s as [|c s]; [discriminate|].
    destruct (Ascii.eqb c a); [|discriminate].
    intros H. apply IH in H. apply suffix_of_cons, H.
Qed.

Lemma fails_from_tail (k : cont) (c : ascii) (s : string) :
  fails_from k (String c s) -> fails_from k s.
Proof. intros H prev s' caps Hs. apply H, suffix_of_cons, Hs. Qed.

Lemma rep_greedy_fails (p : ascii -> bool) (k : cont) (s : string) :
  fails_from k s -> forall prev caps, rep_greedy p k prev s caps = None.
Proof.
  induction s as [|c s IH]; intros Hk prev caps; simpl.
  - apply Hk, suffix_of_refl.
  - rewrite (IH (fails_from_tail _ _ _ Hk)), (Hk prev (String c s) caps (suffix_of_refl _)).
    destruct (p c); reflexivity.
Qed.

Lemma rep_lazy_fails (p : ascii -> bool) (k : cont) (s : string) :
  fails_from k s -> forall prev caps, rep_lazy p k prev s caps = None.
Proof.
  induction s as [|c s IH]; intros Hk prev caps; simpl;
    rewrite (Hk prev _ caps (suffix_of_refl _)); [reflexivity|].
  rewrite (IH (fails_from_tail _ _ _ Hk)). destruct (p c); reflexivity.
Qed.

Lemma rmatch_fails (r : regex) :
  forall k s, fails_from k s -> forall prev caps, rmatch r k prev s caps = None.
Proof.
  induction r as [|l|p|p|p|p|n r IH|r1 IH1 r2 IH2| | |]; intros k s Hk prev caps; simpl.
  - apply Hk, suffix_of_refl.
  - destruct (lit_match l s prev) as [[prev' s']|] eqn:E; [|reflexivity].
    apply Hk. exact (lit_match_suffix _ _ _ _ _ E).
  - destruct s as [|c s]; [reflexivity|].
    destruct (p c); [|reflexivity]. apply Hk. exists (String c ""). reflexivity.
  - apply rep_greedy_fails, Hk.
  - destruct s as [|c s]; [reflexivity|].
    destruct (p c); [|reflexivity]. apply rep_greedy_fails, fails_from_tail with c, Hk.
  - destruct s as [|c s]; [reflexivity|].
    destruct (p c); [|reflexivity]. apply rep_lazy_fails, fails_from_tail with c, Hk.
  - apply IH. intros prev' s' caps' Hs. apply Hk, Hs.
  - apply IH1. intros prev' s' caps' Hs. apply IH2.
    intros prev'' s'' caps'' Hs'. apply Hk. exact (suffix_of_trans _ _ _ Hs' Hs).
  - destruct prev; [reflexivity|]. apply Hk, suffix_of_refl.
  - destruct (negb (nonempty s) || String.eqb s NL); [|reflexivity]. apply Hk, suffix_of_refl.
  - destruct (xorb _ _); [|reflexivity]. apply Hk, suffix_of_refl.
Qed.

Lemma contains_char_append (x : ascii) (a b : string) :
  contains_char x (a +:+ b) = contains_char x a || contains_char x b.
Proof.
  induction a as [|c a IH]; [reflexivity|].
  change (Ascii.eqb c x || contains_char x (a +:+ b)
          = Ascii.eqb c x || contains_char x a || contains_char x b).
  rewrite IH, orb_assoc. reflexivity.
Qed.

Lemma ctor_re_needs_backslash (s : string) :
  contains_char "\" s = false -> re_match ctor_re s = None.
Proof.
  intros Hs. unfold re_match, ctor_re, seq. cbn [fold_right rmatch].
  apply rmatch_fails. intros prev s' caps [pre ->].
  rewrite contains_char_append in Hs. apply orb_false_elim in Hs as [_ Hs].
  cbn [rmatch]. destruct s' as [|c s']; [reflexivity|].
  simpl in Hs. apply orb_false_elim in Hs as [Hc _].
  unfold BSL. simpl. rewrite Hc. reflexivity.
Qed.

Lemma contains_char_lstrip (x : ascii) (p : ascii -> bool) (s : string) :
  contains_char x s = false -> contains_char x (lstrip_by p s) = false.
Proof.
  induction s as [|c s IH]; simpl; [auto|]. intros H.
  destruct (p c); [|exact H]. apply IH. apply orb_false_elim in H. tauto.
Qed.

Lemma contains_char_rstrip (x : ascii) (p : ascii -> bool) (s : string) :
  contains_char x s = false -> contains_char x (rstrip_by p s) = false.
Proof.
  induction s as [|c s IH]; simpl; [auto|]. intros H.
  apply orb_false_elim in H as [Hc Hs].
  destruct (negb (nonempty (rstrip_by p s)) && p c); [reflexivity|].
  simpl. rewrite Hc, (IH Hs). reflexivity.
Qed.

Lemma contains_char_splitlines_go (x : ascii) (s cur : string) (after_cr : bool) :
  contains_char x s = false -> contains_char x cur = false ->
  Forall (fun line => contains_char x line = false) (splitlines_go s cur after_cr).
Proof.
  revert cur after_cr. induction s as [|c s IH]; intros cur after_cr Hs Hcur; simpl.
  - destruct (nonempty cur); repeat constructor. exact Hcur.
  - simpl in Hs. apply orb_false_elim in Hs as [Hc Hs].
    destruct (after_cr && _); [apply IH; assumption|].
    destruct (is_linebreak c).
    + constructor; [exact Hcur|]. apply IH; [exact Hs | reflexivity].
    + apply IH; [exact Hs|]. unfold snoc. rewrite contains_char_append. simpl.
      rewrite Hcur, Hc. reflexivity.
Qed.

(** On a source without a backslash the constructor set is empty, whatever
    ADT lines it holds. *)
Lemma parse_ctor_exports_without_backslash (aivi_source : string) :
  contains_char "\" aivi_source = false -> parse_ctor_exports aivi_source = ∅.
Proof.
  intros H. unfold parse_ctor_exports, splitlines.
  pose proof (contains_char_splitlines_go "\" aivi_source "" false H eq_refl) as Hlines.
  induction Hlines as [|line lines Hline _ IH]; simpl; [reflexivity|].
  rewrite ctor_re_needs_backslash.
  - destruct (negb (nonempty (strip line)) || startswith (strip line) "//"); [exact IH|].
    destruct (negb (contains_char "|" (strip line)) || negb (contains_char "=" (strip line)));
      exact IH.
  - unfold strip. apply contains_char_rstrip, contains_char_lstrip, Hline.
Qed.

(** ** What a successful match consumed *)

Lemma append_cons (c : ascii) (a b : string) : String c a +:+ b = String c (a +:+ b).
Proof. reflexivity. Qed.

Lemma append_nil_r (a : string) : a +:+ "" = a.
Proof. induction a as [|c a IH]; [reflexivity|]. rewrite append_cons, IH. reflexivity. Qed.

Lemma lit_match_inv (l s : string) (prev prev' : option ascii) (s' : string) :
  lit_match l s prev = Some (prev', s') -> s = l +:+ s'.
Proof.
  revert s prev. induction l as [|a l IH]; intros s prev; simpl.
  - intros [= _ ->]. reflexivity.
  - destruct s as [|c s]; [discriminate|].
    destruct (Ascii.eqb_spec c a) as [->|]; [|discriminate].
    intros H. rewrite append_cons, <- (IH _ _ H). reflexivity.
Qed.

Lemma rep_greedy_inv (p : ascii -> bool) (k : cont) (s : string) :
  forall prev caps res,
    rep_greedy p k prev s caps = Some res ->
    exists pre s' prev',
      s = pre +:+ s' /\ all_chars p pre = true /\ k prev' s' caps = Some res.
Proof.
  induction s as [|c s IH]; intros prev caps res; simpl.
  - intros H. exists "", "", prev. auto.
  - destruct (p c) eqn:Hc.
    + destruct (rep_greedy p k (Some c) s caps) as [r|] eqn:E.
      * intros [= ->]. destruct (IH _ _ _ E) as (pre & s' & prev' & -> & Hpre & Hk).
        exists (String c pre), s', prev'. simpl. rewrite Hc, Hpre. auto.
      * intros H. exists "", (String c s), prev. auto.
    + intros H. exists "", (String c s), prev. auto.
Qed.

Lemma rep_lazy_inv (p : ascii -> bool) (k : cont) (s : string) :
  forall prev caps res,
    rep_lazy p k prev s caps = Some res ->
    exists pre s' prev',
      s = pre +:+ s' /\ all_chars p pre = true /\ k prev' s' caps = Some res.
Proof.
  induction s as [|c s IH]; intros prev caps res; simpl.
  - destruct (k prev "" caps) eqn:E; [|discriminate].
    intros [= ->]. exists "", "", prev. auto.
  - destruct (k prev (String c s) caps) eqn:E.
    + intros [= ->]. exists "", (String c s), prev. auto.
    + destruct (p c) eqn:Hc; [|discriminate]. intros H.
      destruct (IH _ _ _ H) as (pre & s' & prev' & -> & Hpre & Hk).
      exists (String c pre), s', prev'. simpl. rewrite Hc, Hpre. auto.
Qed.

Lemma substring_consumed (pre s' : string) :
  String.substring 0 (String.length (pre +:+ s') - String.length s') (pre +:+ s') = pre.
Proof.
  rewrite length_append.
  replace (String.length pre + String.length s' - String.length s')
    with (String.length pre) by lia.
  induction pre as [|c pre IH]; simpl.
  - destruct s'; reflexivity.
  - rewrite IH. reflexivity.
Qed.

(** The matcher is sound: when a match succeeds, the subject splits into the
    text consumed, which the pattern describes, and the rest, on which the
    continuation succeeded with the groups of the pattern added. *)
Lemma rmatch_sound (r : regex) :
  forall k prev s caps res,
    rmatch r k prev s caps = Some res ->
    exists pre s' prev' cs,
      s = pre +:+ s' /\ consumes r pre cs /\ k prev' s' (cs ++ caps) = Some res.
Proof.
  induction r as [|l|p|p|p|p|n r IH|r1 IH1 r2 IH2| | |]; intros k prev s caps res; simpl.
  - intros H. exists "", s, prev, []. auto.
  - destruct (lit_match l s prev) as [[prev' s']|] eqn:E; [|discriminate].
    intros H. exists l, s', prev', []. split; [exact (lit_match_inv _ _ _ _ _ E)|auto].
  - destruct s as [|c s]; [discriminate|]. destruct (p c) eqn:Hc; [|discriminate].
    intros H. exists (String c ""), s, (Some c), []. repeat split; eauto.
  - intros H. destruct (rep_greedy_inv _ _ _ _ _ _ H) as (pre & s' & prev' & -> & Hp & Hk).
    exists pre, s', prev', []. auto.
  - destruct s as [|c s]; [discriminate|]. destruct (p c) eqn:Hc; [|discriminate].
    intros H. destruct (rep_greedy_inv _ _ _ _ _ _ H) as (pre & s' & prev' & -> & Hp & Hk).
    exists (String c pre), s', prev', []. simpl. rewrite Hc, Hp. auto.
  - destruct s as [|c s]; [discriminate|]. destruct (p c) eqn:Hc; [|discriminate].
    intros H. destruct (rep_lazy_inv _ _ _ _ _ _ H) as (pre & s' & prev' & -> & Hp & Hk).
    exists (String c pre), s', prev', []. simpl. rewrite Hc, Hp. auto.
  - intros H. destruct (IH _ _ _ _ _ H) as (pre & s' & prev' & cs & -> & Hc & Hk).
    rewrite substring_consumed in Hk.
    exists pre, s', prev', ((n, pre) :: cs). split; [reflexivity|]. split; [eauto|exact Hk].
  - intros H. destruct (IH1 _ _ _ _ _ H) as (a & s1 & p1 & c1 & -> & Ha & H1).
    destruct (IH2 _ _ _ _ _ H1) as (b & s2 & p2 & c2 & -> & Hb & H2).
    exists (a +:+ b), s2, p2, (c2 ++ c1). split; [symmetry; apply append_assoc|].
    split; [exists a, b, c1, c2; auto|]. rewrite <- app_assoc. exact H2.
  - destruct prev; [discriminate|]. intros H. exists "", s, None, []. auto.
  - destruct (negb (nonempty s) || String.eqb s NL); [|discriminate].
    intros H. exists "", s, prev, []. auto.
  - destruct (xorb _ _); [|discriminate]. intros H. exists "", s, prev, []. auto.
Qed.

Lemma re_match_sound (r : regex) (s : string) (m : captures) :
  re_match r s = Some m -> exists pre s', s = pre +:+ s' /\ consumes r pre m.
Proof.
  unfold re_match. intros H.
  destruct (rmatch_sound _ _ _ _ _ _ H) as (pre & s' & prev' & cs & Hs & Hc & Hk).
  unfold accept in Hk. rewrite app_nil_r in Hk. injection Hk as Hm. subst cs. eauto.
Qed.

Lemma re_search_sound (r : regex) (s : string) (m : captures) :
  re_search r s = Some m ->
  exists before pre after, s = before +:+ pre +:+ after /\ consumes r pre m.
Proof.
  unfold re_search. generalize (@None ascii) as prev.
  induction s as [|c s IH]; intros prev; simpl.
  - destruct (rmatch r accept prev "" []) eqn:E; [|discriminate].
    intros [= ->]. destruct (rmatch_sound _ _ _ _ _ _ E) as (pre & s' & prev' & cs & Hs & Hc & Hk).
    unfold accept in Hk. rewrite app_nil_r in Hk. injection Hk as Hm. subst cs.
    exists "", pre, s'. auto.
  - destruct (rmatch r accept prev (String c s) []) eqn:E.
    + intros [= ->].
      destruct (rmatch_sound _ _ _ _ _ _ E) as (pre & s' & prev' & cs & Hs & Hc & Hk).
      unfold accept in Hk. rewrite app_nil_r in Hk. injection Hk as Hm. subst cs.
      exists "", pre, s'. auto.
    + intros H. destruct (IH _ H) as (before & pre & after & -> & Hc).
      exists (String c before), pre, after. auto.
Qed.

(** ** The name predicates *)

Lemma eos_ok (s : string) :
  negb (nonempty s) || String.eqb s NL = true <-> s = "" \/ s = NL.
Proof.
  split.
  - destruct s as [|c s]; [auto|]. simpl. intros H. right.
    apply String.eqb_eq. exact H.
  - intros [->| ->]; reflexivity.
Qed.

Lemma rep_greedy_run (p : ascii -> bool) (k : cont) (a b : string) (caps r : captures) :
  all_chars p a = true ->
  match b with String c _ => p c = false | "" => True end ->
  (forall prev, k prev b caps = Some r) ->
  forall prev, rep_greedy p k prev (a +:+ b) caps = Some r.
Proof.
  intros Ha Hb Hk. induction a as [|c a IH]; intros prev.
  - change ("" +:+ b) with b. destruct b as [|c b]; simpl; [apply Hk|].
    rewrite Hb. apply Hk.
  - simpl in Ha. apply andb_prop in Ha as [Hc Ha].
    rewrite append_cons. simpl. rewrite Hc, (IH Ha). reflexivity.
Qed.

Lemma end_of_subject (tail : string) (caps : captures) :
  tail = "" \/ tail = NL ->
  forall prev, rmatch (seq [Eos]) accept prev tail caps = Some caps.
Proof. intros [->| ->] prev; reflexivity. Qed.

Lemma not_ident_head (tail : string) :
  tail = "" \/ tail = NL ->
  match tail with String c _ => is_ident c = false | "" => True end.
Proof. intros [->| ->]; [exact I | reflexivity]. Qed.

Lemma ident_re_iff (first : ascii -> bool) (name : string) :
  bool_decide (is_Some (re_match (seq [Bos; Cls first; Star is_ident; Eos]) name)) = true
  <-> exists body, ident_shape first body = true /\ up_to_newline name body.
Proof.
  rewrite bool_decide_eq_true. unfold re_match. cbn [seq fold_right rmatch].
  split.
  - intros [m H]. destruct name as [|c t]; [discriminate|].
    destruct (first c) eqn:Hc; [|discriminate].
    apply rep_greedy_inv in H as (pre & s' & prev' & -> & Hpre & Hk).
    simpl in Hk. destruct (negb (nonempty s') || String.eqb s' NL) eqn:E; [|discriminate].
    apply eos_ok in E. exists (String c pre). split; [simpl; rewrite Hc, Hpre; reflexivity|].
    destruct E as [->| ->]; [left; rewrite append_nil_r; reflexivity | right; reflexivity].
  - intros (body & Hshape & Hname). destruct body as [|c t]; [discriminate|].
    simpl in Hshape. apply andb_prop in Hshape as [Hc Ht].
    assert (Htail : exists tail, name = String c (t +:+ tail) /\ (tail = "" \/ tail = NL)).
    { destruct Hname as [->| ->]; [exists ""; rewrite append_nil_r | exists NL]; auto. }
    destruct Htail as (tail & -> & Htail). rewrite Hc.
    exists []. apply rep_greedy_run; [exact Ht | exact (not_ident_head _ Htail) |].
    apply (end_of_subject tail [] Htail).
Qed.

Lemma letter_not_digit (c : ascii) : is_letter c = true -> is_digit c = false.
Proof.
  unfold is_letter, is_upper, is_lower, is_digit, in_range. intros H.
  apply andb_false_iff.
  apply orb_prop in H as [H|H]; apply andb_prop in H as [H1 H2];
    apply N.leb_le in H1, H2; right; apply N.leb_gt; lia.
Qed.

Lemma suffix_template_iff (name : string) :
  is_suffix_template name = true
  <-> exists body, template_shape body /\ up_to_newline name body.
Proof.
  unfold is_suffix_template, suffix_template_re, template_shape.
  rewrite bool_decide_eq_true. unfold re_match. cbn [seq fold_right rmatch].
  split.
  - intros [m H]. destruct name as [|d t]; [discriminate|].
    destruct (is_digit d) eqn:Hd; [|discriminate].
    apply rep_greedy_inv in H as (ds & s1 & prev1 & -> & Hds & H).
    cbn [rmatch] in H. destruct s1 as [|l u]; [discriminate|].
    destruct (is_letter l) eqn:Hl; [|discriminate].
    apply rep_greedy_inv in H as (pre & s' & prev' & -> & Hpre & Hk).
    simpl in Hk. destruct (negb (nonempty s') || String.eqb s' NL) eqn:E; [|discriminate].
    apply eos_ok in E. exists (String d ds +:+ String l pre). split.
    + exists (String d ds), (String l pre). simpl. rewrite Hd, Hds, Hl, Hpre. auto.
    + destruct E as [->| ->]; [left | right].
      * rewrite append_nil_r. reflexivity.
      * rewrite append_assoc. reflexivity.
  - intros (body & (digits & rest & -> & Hne & Hds & Hrest) & Hname).
    destruct digits as [|d ds]; [discriminate|].
    destruct rest as [|l pre]; [discriminate|].
    simpl in Hds, Hrest.
    apply andb_prop in Hds as [Hd Hds]. apply andb_prop in Hrest as [Hl Hpre].
    assert (Htail : exists tail,
               name = String d (ds +:+ String l (pre +:+ tail)) /\ (tail = "" \/ tail = NL)).
    { destruct Hname as [->| ->]; [exists "" | exists NL];
        (split; [|auto]); rewrite ?append_nil_r, ?append_assoc; reflexivity. }
    destruct Htail as (tail & -> & Htail). rewrite Hd.
    exists []. apply rep_greedy_run; [exact Hds | exact (letter_not_digit _ Hl) |].
    intros prev. cbn [rmatch]. rewrite Hl.
    apply rep_greedy_run; [exact Hpre | exact (not_ident_head _ Htail) |].
    apply (end_of_subject tail [] Htail).
Qed.

(** X1.  The three name predicates accept exactly the shapes their patterns
    spell, and, because of the way the end anchor works, the same shapes
    followed by one final newline: a capitalized identifier, a lowercase
    identifier, and digits followed by a letter and identifier characters. *)
Theorem name_predicates_characterized (name : string) :
  (is_upper_name name = true
   <-> exists body, ident_shape is_upper body = true /\ up_to_newline name body)
  /\ (is_lower_value name = true
      <-> exists body, ident_shape is_lower body = true /\ up_to_newline name body)
  /\ (is_suffix_template name = true
      <-> exists body, template_shape body /\ up_to_newline name body).
Proof.
  split; [|split].
  - apply (ident_re_iff is_upper).
  - apply (ident_re_iff is_lower).
  - apply suffix_template_iff.
Qed.

Lemma name_predicates_characterized_witness :
  is_upper_name ("IntType" +:+ NL) = true
  /\ is_suffix_template "10ms" = true
  /\ exists body, ident_shape is_lower body = true /\ up_to_newline "origin" body.
Proof.
  split; [|split].
  - apply (proj1 (name_predicates_characterized ("IntType" +:+ NL))).
    exists "IntType". split; [reflexivity | right; reflexivity].
  - apply (proj2 (proj2 (name_predicates_characterized "10ms"))).
    exists "10ms". split; [|left; reflexivity].
    exists "10", "ms". repeat split; reflexivity.
  - apply (proj1 (proj2 (name_predicates_characterized "origin"))). reflexivity.
Defined.

(** ** Sanitized segments *)

Lemma all_chars_append (p : ascii -> bool) (a b : string) :
  all_chars p (a +:+ b) = all_chars p a && all_chars p b.
Proof.
  induction a as [|c a IH]; [reflexivity|].
  rewrite append_cons. simpl. rewrite IH, andb_assoc. reflexivity.
Qed.

Lemma all_chars_lstrip (p q : ascii -> bool) (s : string) :
  all_chars p s = true -> all_chars p (lstrip_by q s) = true.
Proof.
  induction s as [|c s IH]; simpl; [auto|]. intros H.
  destruct (q c); [|exact H]. apply andb_prop in H as [_ H]. auto.
Qed.

Lemma all_chars_rstrip (p q : ascii -> bool) (s : string) :
  all_chars p s = true -> all_chars p (rstrip_by q s) = true.
Proof.
  induction s as [|c s IH]; simpl; [auto|]. intros H.
  apply andb_prop in H as [Hc H].
  destruct (negb (nonempty (rstrip_by q s)) && q c); [reflexivity|].
  simpl. rewrite Hc, (IH H). reflexivity.
Qed.

Lemma all_chars_sub_non_ident (s : string) : all_chars is_ident (sub_non_ident s) = true.
Proof.
  induction s as [|c s IH]; simpl; [reflexivity|].
  rewrite IH. destruct (is_ident c) eqn:E; [rewrite E|]; reflexivity.
Qed.

Lemma all_chars_collapse_go (p : ascii -> bool) (s : string) (b : bool) :
  all_chars p s = true -> all_chars p (collapse_go s b) = true.
Proof.
  revert b. induction s as [|c s IH]; intros b; simpl; [auto|]. intros H.
  apply andb_prop in H as [Hc H].
  destruct (is_char "_" c); [destruct b|]; simpl; rewrite ?Hc; simpl; auto.
Qed.

Lemma lstrip_head (p : ascii -> bool) (s : string) :
  match lstrip_by p s with String c _ => p c = false | "" => True end.
Proof.
  induction s as [|c s IH]; simpl; [exact I|].
  destruct (p c) eqn:E; [exact IH | simpl; exact E].
Qed.

Lemma rstrip_head (p : ascii -> bool) (c : ascii) (s : string) :
  rstrip_by p (String c s) = "" \/ exists r, rstrip_by p (String c s) = String c r.
Proof. simpl. destruct (negb _ && p c); eauto. Qed.

Lemma ident_cases (c : ascii) :
  is_ident c = true -> is_letter c = true \/ is_digit c = true \/ is_char "_" c = true.
Proof.
  unfold is_ident, is_letter. intros H.
  repeat (apply orb_prop in H as [H|H]); rewrite ?H, ?orb_true_r; auto.
Qed.

Lemma ident_shape_letter_ident (s : string) :
  ident_shape is_letter s = true -> all_chars is_ident s = true.
Proof.
  destruct s as [|c t]; [discriminate|]. simpl. intros H.
  apply andb_prop in H as [Hc Ht]. rewrite Ht, andb_true_r.
  unfold is_ident. unfold is_letter in Hc.
  apply orb_prop in Hc as [->| ->]; rewrite ?orb_true_r; reflexivity.
Qed.

Lemma sanitize_segment_ident (seg : string) :
  ident_shape is_letter (sanitize_segment seg) = true.
Proof.
  unfold sanitize_segment, strip_char. cbv zeta.
  set (u := collapse_underscores (sub_non_ident (replace_char "-" "_" (strip seg)))).
  assert (Hu : all_chars is_ident u = true)
    by (apply all_chars_collapse_go, all_chars_sub_non_ident).
  pose proof (lstrip_head (is_char "_") u) as Hhead.
  pose proof (all_chars_lstrip is_ident (is_char "_") u Hu) as Hl.
  destruct (lstrip_by (is_char "_") u) as [|c t] eqn:El; [reflexivity|].
  pose proof (all_chars_rstrip is_ident (is_char "_") _ Hl) as Hr.
  destruct (rstrip_head (is_char "_") c t) as [->|[r Er]]; [reflexivity|].
  rewrite Er in *. cbn [nonempty negb].
  simpl in Hr. apply andb_prop in Hr as [Hc Hr].
  destruct (ident_cases c Hc) as [Hletter|[Hdigit|Hus]].
  - rewrite (letter_not_digit c Hletter). simpl. rewrite Hletter, Hr. reflexivity.
  - rewrite Hdigit. change ("n_" +:+ String c r) with (String "n" (String "_" (String c r))).
    simpl. rewrite Hc, Hr. reflexivity.
  - rewrite Hus in Hhead. discriminate Hhead.
Qed.

Lemma count_char_nonneg (x : ascii) (s : string) : (0 <= count_char x s)%Z.
Proof.
  induction s as [|c s IH]; simpl; [lia|]. destruct (Ascii.eqb c x); lia.
Qed.

Lemma split_on_length (sep : ascii) (s : string) :
  Z.of_nat (length (split_on sep s)) = (1 + count_char sep s)%Z.
Proof.
  induction s as [|c s IH]; [reflexivity|].
  cbn [split_on count_char].
  destruct (Ascii.eqb c sep).
  - rewrite length_cons. lia.
  - pose proof (count_char_nonneg sep s).
    destruct (split_on sep s) as [|h t]; rewrite ?length_cons in *; simpl in IH; lia.
Qed.

Lemma module_segments_idents (module_name : string) :
  Forall (fun seg => ident_shape is_letter seg = true) (module_segments module_name).
Proof.
  unfold module_segments. apply Forall_forall. intros seg Hin.
  apply list_elem_of_In, in_map_iff in Hin as (raw & <- & _).
  apply sanitize_segment_ident.
Qed.

Lemma module_segments_length (module_name : string) :
  Z.of_nat (length (module_segments module_name)) = (1 + count_char "." module_name)%Z.
Proof.
  unfold module_segments. rewrite length_map. apply split_on_length.
Qed.

(** X2.  A module name always has at least one segment, one more than it has
    dots, and every segment is an identifier beginning with a letter: empty
    segments (as in [a..b] or the empty name) become [x]. *)
Theorem module_segments_shape (module_name : string) :
  Z.of_nat (length (module_segments module_name)) = (1 + count_char "." module_name)%Z
  /\ Forall (fun seg => ident_shape is_letter seg = true) (module_segments module_name)
  /\ module_segments "" = ["x"]
  /\ module_segments "a..b" = ["a"; "x"; "b"].
Proof.
  split; [|split; [|split; reflexivity]].
  - apply module_segments_length.
  - apply module_segments_idents.
Qed.

Lemma ident_not_space (c : ascii) : is_ident c = true -> isspace c = false.
Proof. destruct c as [[] [] [] [] [] [] [] []]; vm_compute; intros H; congruence. Qed.

Lemma ident_not_dash (c : ascii) : is_ident c = true -> Ascii.eqb c "-" = false.
Proof. destruct c as [[] [] [] [] [] [] [] []]; vm_compute; intros H; congruence. Qed.

Lemma letter_not_us (c : ascii) : is_letter c = true -> is_char "_" c = false.
Proof. destruct c as [[] [] [] [] [] [] [] []]; vm_compute; intros H; congruence. Qed.

Lemma letter_is_ident (c : ascii) : is_letter c = true -> is_ident c = true.
Proof.
  unfold is_ident, is_letter. intros H.
  apply orb_prop in H as [->| ->]; rewrite ?orb_true_r; reflexivity.
Qed.

Lemma rstrip_by_fix (p q : ascii -> bool) (s : string) :
  (forall c, q c = true -> p c = false) ->
  all_chars q s = true -> rstrip_by p s = s.
Proof.
  intros Hpq. induction s as [|c s IH]; simpl; [auto|]. intros H.
  apply andb_prop in H as [Hc H]. rewrite (Hpq c Hc), andb_false_r, (IH H). reflexivity.
Qed.

Lemma rstrip_by_idem (p : ascii -> bool) (s : string) :
  rstrip_by p (rstrip_by p s) = rstrip_by p s.
Proof.
  induction s as [|c s IH]; simpl; [reflexivity|].
  destruct (negb (nonempty (rstrip_by p s)) && p c) eqn:E; [reflexivity|].
  simpl. rewrite IH, E. reflexivity.
Qed.

Lemma rstrip_by_append (p : ascii -> bool) (a w : string) :
  nonempty (rstrip_by p w) = true -> rstrip_by p (a +:+ w) = a +:+ rstrip_by p w.
Proof.
  intros H. induction a as [|c a IH]; [reflexivity|].
  rewrite !append_cons. simpl. rewrite IH.
  destruct a; [change ("" +:+ rstrip_by p w) with (rstrip_by p w); rewrite H|];
    reflexivity.
Qed.

Lemma replace_char_fix (x y : ascii) (s : string) :
  all_chars (fun c => negb (Ascii.eqb c x)) s = true -> replace_char x y s = s.
Proof.
  induction s as [|c s IH]; simpl; [auto|]. intros H.
  apply andb_prop in H as [Hc H]. apply negb_true_iff in Hc. rewrite Hc, (IH H). reflexivity.
Qed.

Lemma all_chars_impl (p q : ascii -> bool) (s : string) :
  (forall c, p c = true -> q c = true) -> all_chars p s = true -> all_chars q s = true.
Proof.
  intros Hpq. induction s as [|c s IH]; simpl; [auto|]. intros H.
  apply andb_prop in H as [Hc H]. rewrite (Hpq c Hc), (IH H). reflexivity.
Qed.

Lemma sub_non_ident_fix (s : string) : all_chars is_ident s = true -> sub_non_ident s = s.
Proof.
  induction s as [|c s IH]; simpl; [auto|]. intros H.
  apply andb_prop in H as [Hc H]. rewrite Hc, (IH H). reflexivity.
Qed.

Lemma no_double_us_collapse_go (s : string) (b : bool) :
  no_double_us (collapse_go s b) b = true.
Proof.
  revert b. induction s as [|c s IH]; intros b; simpl; [reflexivity|].
  destruct (is_char "_" c) eqn:E.
  - destruct b; [apply IH|]. simpl. rewrite E. apply IH.
  - simpl. rewrite E. apply IH.
Qed.

Lemma collapse_go_fix (s : string) (b : bool) :
  no_double_us s b = true -> collapse_go s b = s.
Proof.
  revert b. induction s as [|c s IH]; intros b; simpl; [auto|].
  destruct (is_char "_" c).
  - intros H. apply andb_prop in H as [Hb H]. apply negb_true_iff in Hb. subst b.
    rewrite (IH _ H). reflexivity.
  - intros H. rewrite (IH _ H). reflexivity.
Qed.

Lemma no_double_us_weaken (s : string) :
  no_double_us s true = true -> no_double_us s false = true.
Proof. destruct s as [|c s]; simpl; [auto|]. destruct (is_char "_" c); [discriminate|auto]. Qed.

Lemma no_double_us_lstrip (s : string) :
  no_double_us s false = true -> no_double_us (lstrip_by (is_char "_") s) false = true.
Proof.
  induction s as [|c s IH]; simpl; [auto|].
  destruct (is_char "_" c) eqn:E; [|simpl; rewrite E; auto].
  intros H. apply IH, no_double_us_weaken. exact H.
Qed.

Lemma no_double_us_rstrip (p : ascii -> bool) (s : string) (b : bool) :
  no_double_us s b = true -> no_double_us (rstrip_by p s) b = true.
Proof.
  revert b. induction s as [|c s IH]; intros b; simpl; [auto|].
  destruct (negb (nonempty (rstrip_by p s)) && p c); [reflexivity|].
  simpl. destruct (is_char "_" c); [|apply IH].
  intros H. apply andb_prop in H as [-> H]. apply IH, H.
Qed.

Lemma sanitize_segment_clean (seg : string) : clean_segment (sanitize_segment seg).
Proof.
  pose proof (sanitize_segment_ident seg) as Hshape.
  split; [exact Hshape|]. revert Hshape.
  unfold sanitize_segment, strip_char. cbv zeta.
  set (u := collapse_underscores (sub_non_ident (replace_char "-" "_" (strip seg)))).
  assert (Hnd : no_double_us (lstrip_by (is_char "_") u) false = true)
    by (apply no_double_us_lstrip, no_double_us_collapse_go).
  apply (no_double_us_rstrip (is_char "_")) in Hnd.
  pose proof (rstrip_by_idem (is_char "_") (lstrip_by (is_char "_") u)) as Hfix.
  destruct (rstrip_by (is_char "_") (lstrip_by (is_char "_") u)) as [|c r] eqn:Et;
    [intros _; split; reflexivity|].
  cbn [nonempty negb]. destruct (is_digit c) eqn:Hd; intros Hshape; [|auto].
  split.
  - change ("n_" +:+ String c r) with (String "n" (String "_" (String c r))).
    cbn [no_double_us]. change (is_char "_" "n") with false.
    change (is_char "_" "_") with true. cbv iota. simpl negb. cbn [andb].
    revert Hnd. cbn [no_double_us].
    destruct (is_char "_" c) eqn:Hus; [|auto].
    destruct c as [[] [] [] [] [] [] [] []]; vm_compute in Hd, Hus; congruence.
  - rewrite rstrip_by_append; rewrite Hfix; reflexivity.
Qed.

(** X3.  A sanitized segment is never empty and is always a letter followed
    by letters, digits and underscores, whatever the text it comes from, so
    it can be used as a path component and as a segment of a dotted module
    name; it has no two underscores in a row and does not end with one.  The
    empty text becomes [x], a leading digit is prefixed with [n_], and the
    function is not injective: a dash and an underscore give the same
    segment. *)
Theorem sanitize_segment_is_identifier (seg : string) :
  ident_shape is_letter (sanitize_segment seg) = true
  /\ no_double_us (sanitize_segment seg) false = true
  /\ rstrip_by (is_char "_") (sanitize_segment seg) = sanitize_segment seg
  /\ sanitize_segment "" = "x"
  /\ sanitize_segment "10ms" = "n_10ms"
  /\ sanitize_segment "a-b" = sanitize_segment "a_b".
Proof.
  destruct (sanitize_segment_clean seg) as (Hshape & Hnd & Hfix).
  repeat split; assumption || reflexivity.
Qed.

(** X4.  Sanitizing is idempotent: a segment that was sanitized once is left
    as it is by a second pass, so the name of a generated case can be fed
    back without drifting. *)
Theorem sanitize_segment_idempotent (seg : string) :
  sanitize_segment (sanitize_segment seg) = sanitize_segment seg.
Proof.
  destruct (sanitize_segment_clean seg) as (Hshape & Hnd & Hfix).
  set (r := sanitize_segment seg) in *.
  pose proof (ident_shape_letter_ident r Hshape) as Hident.
  destruct r as [|c t] eqn:Er; [discriminate|]. rewrite <- Er in *.
  assert (Hc : is_letter c = true).
  { rewrite Er in Hshape. simpl in Hshape. apply andb_prop in Hshape. tauto. }
  unfold sanitize_segment at 1. cbv zeta.
  assert (Hstrip : strip r = r).
  { unfold strip. rewrite Er at 1. simpl lstrip_by.
    rewrite (ident_not_space c (letter_is_ident c Hc)), <- Er.
    apply (rstrip_by_fix isspace is_ident); [exact ident_not_space | exact Hident]. }
  rewrite Hstrip.
  rewrite (replace_char_fix "-" "_" r)
    by (apply (all_chars_impl is_ident); [|exact Hident];
        intros a Ha; rewrite (ident_not_dash a Ha); reflexivity).
  rewrite (sub_non_ident_fix r Hident).
  unfold collapse_underscores. rewrite (collapse_go_fix r false Hnd).
  unfold strip_char.
  assert (Hl : lstrip_by (is_char "_") r = r).
  { rewrite Er. simpl. rewrite (letter_not_us c Hc). reflexivity. }
  rewrite Hl, Hfix, Er. cbn [nonempty negb].
  rewrite (letter_not_digit c Hc). reflexivity.
Qed.

(** ** Export names *)

Lemma split_on_no_sep (sep : ascii) (s part : string) :
  In part (split_on sep s) -> contains_char sep part = false.
Proof.
  revert part. induction s as [|c s IH]; intros part; simpl.
  - intros [<-|[]]. reflexivity.
  - destruct (Ascii.eqb c sep) eqn:E.
    + intros [<-|H]; [reflexivity | apply IH, H].
    + destruct (split_on sep s) as [|h t].
      * intros [<-|[]]. simpl. rewrite E. reflexivity.
      * intros [<-|H].
        -- simpl. rewrite E. apply IH. left. reflexivity.
        -- apply IH. right. exact H.
Qed.

Lemma strip_idem (s : string) : strip (strip s) = strip s.
Proof.
  unfold strip.
  assert (H : lstrip_by isspace (rstrip_by isspace (lstrip_by isspace s))
              = rstrip_by isspace (lstrip_by isspace s)).
  { pose proof (lstrip_head isspace s) as Hhead.
    destruct (lstrip_by isspace s) as [|c t]; [reflexivity|].
    destruct (rstrip_head isspace c t) as [->|[r ->]]; [reflexivity|].
    simpl. rewrite Hhead. reflexivity. }
  rewrite H. apply rstrip_by_idem.
Qed.

Lemma startswith_nil (s : string) : startswith s "" = true.
Proof. destruct s; reflexivity. Qed.

Lemma startswith_append (pre x : string) : startswith (pre +:+ x) pre = true.
Proof.
  induction pre as [|a pre IH]; [apply startswith_nil|].
  rewrite append_cons. simpl. rewrite Ascii.eqb_refl. exact IH.
Qed.

Lemma substring_full (s : string) : String.substring 0 (String.length s) s = s.
Proof. induction s as [|c s IH]; simpl; [reflexivity | rewrite IH; reflexivity]. Qed.

Lemma startswith_drop (s pre : string) :
  startswith s pre = true -> s = pre +:+ drop_str (String.length pre) s.
Proof.
  revert s. induction pre as [|a pre IH]; intros s H.
  - unfold drop_str. simpl String.length. rewrite Nat.sub_0_r, substring_full. reflexivity.
  - destruct s as [|c s]; [discriminate H|]. simpl in H.
    apply andb_prop in H as [Hc H]. apply Ascii.eqb_eq in Hc as ->.
    rewrite append_cons. f_equal. exact (IH s H).
Qed.

Lemma before_first_nil (sub : string) : before_first sub "" = "".
Proof. simpl. destruct sub; reflexivity. Qed.

Lemma before_first_cons (sub : string) (c : ascii) (s : string) :
  before_first sub (String c s)
  = if startswith (String c s) sub then "" else String c (before_first sub s).
Proof. reflexivity. Qed.

Lemma before_first_split (sub s : string) : exists tail, s = before_first sub s +:+ tail.
Proof.
  induction s as [|c s [tail IH]].
  - exists "". rewrite before_first_nil. reflexivity.
  - rewrite before_first_cons.
    destruct (startswith (String c s) sub); [exists (String c s); reflexivity|].
    exists tail. rewrite append_cons, <- IH. reflexivity.
Qed.

Lemma append_nil_inv (a b : string) : a +:+ b = "" -> a = "" /\ b = "".
Proof. destruct a; [auto | discriminate]. Qed.

(** The text before the first occurrence of [sub] does not hold [sub]. *)
Lemma before_first_free (sub s : string) :
  sub <> "" -> forall a b, before_first sub s <> a +:+ sub +:+ b.
Proof.
  intros Hsub.
  assert (Hnil : forall a b, "" <> a +:+ sub +:+ b).
  { intros a b H. symmetry in H.
    apply append_nil_inv in H as [_ H]. apply append_nil_inv in H as [H _]. auto. }
  induction s as [|c s IH]; intros a b.
  - rewrite before_first_nil. apply Hnil.
  - rewrite before_first_cons. destruct (startswith (String c s) sub) eqn:E; [apply Hnil|].
    destruct a as [|c' a].
    + change ("" +:+ sub +:+ b) with (sub +:+ b). intros H.
      destruct (before_first_split sub s) as [tail Hs].
      assert (Hpre : String c s = sub +:+ b +:+ tail).
      { rewrite Hs at 1. rewrite <- append_cons, H. apply append_assoc. }
      rewrite Hpre, startswith_append in E. discriminate E.
    + rewrite append_cons. intros H. injection H as _ H. exact (IH a b H).
Qed.

Lemma lstrip_split (p : ascii -> bool) (s : string) : exists w, s = w +:+ lstrip_by p s.
Proof.
  induction s as [|c s [w IH]]; simpl; [exists ""; reflexivity|].
  destruct (p c); [|exists ""; reflexivity].
  exists (String c w). rewrite append_cons, <- IH. reflexivity.
Qed.

Lemma rstrip_split (p : ascii -> bool) (s : string) : exists w, s = rstrip_by p s +:+ w.
Proof.
  induction s as [|c s [w IH]]; simpl; [exists ""; reflexivity|].
  destruct (negb (nonempty (rstrip_by p s)) && p c); [exists (String c s); reflexivity|].
  exists w. rewrite append_cons, <- IH. reflexivity.
Qed.

Lemma strip_split (s : string) : exists w1 w2, s = w1 +:+ strip s +:+ w2.
Proof.
  unfold strip. destruct (lstrip_split isspace s) as [w1 H1].
  destruct (rstrip_split isspace (lstrip_by isspace s)) as [w2 H2].
  exists w1, w2. rewrite <- H2. exact H1.
Qed.

Lemma split_on_head (sep : ascii) (s h : string) (t : list string) :
  split_on sep s = h :: t -> exists b, s = h +:+ b.
Proof.
  revert h t. induction s as [|c s IH]; intros h t; simpl.
  - intros [= <- <-]. exists "". reflexivity.
  - destruct (Ascii.eqb c sep); [intros [= <- <-]; exists (String c s); reflexivity|].
    destruct (split_on sep s) as [|h' t'] eqn:E.
    + intros [= <- <-]. destruct s; simpl in E; [discriminate E|].
      destruct (Ascii.eqb _ sep); [discriminate E|]. destruct (split_on sep s); discriminate E.
    + intros [= <- <-]. destruct (IH h' t' eq_refl) as [b ->].
      exists b. rewrite append_cons. reflexivity.
Qed.

(** A piece of a split is a part of the text. *)
Lemma split_on_part (sep : ascii) (s part : string) :
  In part (split_on sep s) -> exists a b, s = a +:+ part +:+ b.
Proof.
  revert part. induction s as [|c s IH]; intros part; simpl.
  - intros [<-|[]]. exists "", "". reflexivity.
  - destruct (Ascii.eqb c sep).
    + intros [<-|H]; [exists "", (String c s); reflexivity|].
      destruct (IH part H) as (a & b & ->). exists (String c a), b. reflexivity.
    + destruct (split_on sep s) as [|h t] eqn:E.
      * intros [<-|[]]. destruct s; simpl in E; [discriminate E|].
        destruct (Ascii.eqb _ sep); [discriminate E|]. destruct (split_on sep s); discriminate E.
      * intros [<-|H].
        -- destruct (split_on_head sep s h t E) as [b ->].
           exists "", b. rewrite append_cons. reflexivity.
        -- destruct (IH part (or_intror H)) as (a & b & ->).
           exists (String c a), b. reflexivity.
Qed.

(** X5.  Every export name extracted from a module source is non-empty, has
    no surrounding whitespace and holds no comma, and it is taken from a
    line that starts, once stripped, with the export keyword and a space:
    the name stands in that line after the keyword, and no comment marker
    comes before the end of the name. *)
Theorem split_exports_names (aivi_source name : string) :
  In name (split_exports aivi_source) ->
  nonempty name = true /\ strip name = name /\ contains_char "," name = false
  /\ exists line before after,
       In line (splitlines aivi_source)
       /\ strip line = "export " +:+ before +:+ name +:+ after
       /\ forall a b, before +:+ name <> a +:+ "//" +:+ b.
Proof.
  unfold split_exports. intros H.
  apply in_flat_map in H as (line & Hline & H).
  destruct (startswith (strip line) "export ") eqn:E; [|destruct H].
  cbn [negb] in H. apply filter_In in H as [H Hne].
  apply in_map_iff in H as (part & <- & Hpart).
  split; [exact Hne|]. split; [apply strip_idem|]. split.
  - unfold strip. apply contains_char_rstrip, contains_char_lstrip.
    exact (split_on_no_sep _ _ _ Hpart).
  - pose proof (startswith_drop _ _ E) as Hs.
    pose proof (before_first_free "//" (drop_str (String.length "export ") (strip line))
                  ltac:(discriminate)) as Hfree.
    destruct (before_first_split "//" (drop_str (String.length "export ") (strip line)))
      as [tail Hd].
    rewrite Hd in Hs at 1.
    destruct (strip_split (before_first "//"
                             (drop_str (String.length "export ") (strip line))))
      as (w1 & w2 & Hbf).
    destruct (split_on_part _ _ _ Hpart) as (a & b & Hrest).
    destruct (strip_split part) as (w3 & w4 & Hp).
    assert (Hall : before_first "//" (drop_str (String.length "export ") (strip line))
                   = ((w1 +:+ a +:+ w3) +:+ strip part) +:+ (w4 +:+ b +:+ w2)).
    { etransitivity; [exact Hbf|]. rewrite Hrest.
      transitivity (w1 +:+ (a +:+ (w3 +:+ strip part +:+ w4) +:+ b) +:+ w2);
        [rewrite <- Hp; reflexivity | rewrite !append_assoc; reflexivity]. }
    exists line, (w1 +:+ a +:+ w3), (w4 +:+ b +:+ w2 +:+ tail).
    split; [exact Hline|]. split.
    + etransitivity; [exact Hs|]. rewrite Hall, !append_assoc. reflexivity.
    + intros x y Hxy. apply (Hfree x (y +:+ w4 +:+ b +:+ w2)).
      rewrite Hall, Hxy, !append_assoc. reflexivity.
Qed.

Lemma split_exports_names_witness :
  nonempty "IntType" = true /\ strip "IntType" = "IntType"
  /\ contains_char "," "IntType" = false
  /\ exists line before after,
       In line (splitlines column_type_src)
       /\ strip line = "export " +:+ before +:+ "IntType" +:+ after
       /\ forall a b, before +:+ "IntType" <> a +:+ "//" +:+ b.
Proof.
  apply (split_exports_names column_type_src "IntType"). left. reflexivity.
Defined.

(** ** Declared names *)

Lemma consumes_ident (first : ascii -> bool) (pre : string) (cs : captures) :
  consumes (seq [Cls first; Star is_ident]) pre cs ->
  ident_shape first pre = true /\ cs = [].
Proof.
  cbn [seq fold_right consumes].
  intros (a & b & c1 & c2 & -> & ((c & -> & Hc) & ->) & (a' & b' & c1' & c2' & -> & (Ha' & ->) & (-> & ->) & ->) & ->).
  rewrite append_nil_r. split; [|reflexivity].
  change (String c "" +:+ a') with (String c a'). simpl. rewrite Hc, Ha'. reflexivity.
Qed.

(** Take apart what a pattern given as a sequence consumed. *)
Ltac consumed :=
  repeat match goal with
         | H : consumes (seq [Cls ?first; Star is_ident]) _ _ |- _ =>
             apply (consumes_ident first) in H
         | H : consumes upper_ident _ _ |- _ =>
             apply (consumes_ident is_upper) in H
         | H : consumes _ _ _ |- _ => progress cbn [seq fold_right consumes] in H
         | H : exists _, _ |- _ => destruct H as [? H]
         | H : _ /\ _ |- _ => destruct H as [? H]
         end;
  subst.

Lemma class_re_group (line : string) (m : captures) :
  re_match class_re line = Some m -> ident_shape is_upper (group 1 m) = true.
Proof.
  intros H. apply re_match_sound in H. unfold class_re in H. consumed.
  assumption.
Qed.

Lemma type_def_re_group (line : string) (m : captures) :
  re_match type_def_re line = Some m -> ident_shape is_upper (group 1 m) = true.
Proof.
  intros H. apply re_match_sound in H. unfold type_def_re in H. consumed.
  assumption.
Qed.

Lemma collect_names_elem (re : regex) (lines : list string) (out : gset string) (x : string) :
  x ∈ fold_left
        (fun out line =>
           match re_match re line with
           | Some m => out ∪ {[ group 1 m ]}
           | None => out
           end) lines out ->
  x ∈ out \/ exists line m, In line lines /\ re_match re line = Some m /\ x = group 1 m.
Proof.
  revert out. induction lines as [|line lines IH]; intros out; simpl; [auto|].
  intros H. apply IH in H as [H|(l & m & Hl & Hm & ->)].
  - destruct (re_match re line) as [m|] eqn:E; [|auto].
    apply elem_of_union in H as [H|H]; [auto|].
    apply elem_of_singleton in H as ->. right. exists line, m. auto.
  - right. exists l, m. auto.
Qed.

Lemma fold_left_invariant {A B : Type} (P : A -> Prop) (f : A -> B -> A) (l : list B) (a : A) :
  P a -> (forall a x, P a -> P (f a x)) -> P (fold_left f l a).
Proof.
  intros Ha Hf. revert a Ha. induction l as [|x l IH]; intros a Ha; simpl; auto.
Qed.

Lemma upper_shape_is_upper_name (x : string) :
  ident_shape is_upper x = true -> is_upper_name x = true.
Proof.
  intros H. apply (ident_re_iff is_upper). exists x. split; [exact H | left; reflexivity].
Qed.

(** X6.  Every name recorded as a type, a class or a constructor of a module
    is a capitalized identifier, so an export that is not capitalized (a
    value, a suffix template) is never taken for a class and skipped. *)
Theorem declared_names_capitalized (aivi_source : string) :
  (forall x, x ∈ parse_type_defs aivi_source -> ident_shape is_upper x = true)
  /\ (forall x, x ∈ parse_class_defs aivi_source -> ident_shape is_upper x = true)
  /\ (forall x, x ∈ parse_ctor_exports aivi_source -> is_upper_name x = true)
  /\ (forall export, is_upper_name export = false -> export ∉ parse_class_defs aivi_source).
Proof.
  assert (Hclass : forall x, x ∈ parse_class_defs aivi_source -> ident_shape is_upper x = true).
  { intros x H. apply collect_names_elem in H as [H|(line & m & _ & Hm & ->)].
    - apply not_elem_of_empty in H. destruct H.
    - exact (class_re_group line m Hm). }
  split; [|split; [exact Hclass|split]].
  - intros x H. apply collect_names_elem in H as [H|(line & m & _ & Hm & ->)].
    + apply not_elem_of_empty in H. destruct H.
    + exact (type_def_re_group line m Hm).
  - unfold parse_ctor_exports.
    apply (fold_left_invariant (fun out : gset string => forall x, x ∈ out -> is_upper_name x = true)).
    + intros x H. apply not_elem_of_empty in H. destruct H.
    + intros out line Hout.
      destruct (negb (nonempty (strip line)) || startswith (strip line) "//"); [exact Hout|].
      destruct (negb (contains_char "|" (strip line)) || negb (contains_char "=" (strip line)));
        [exact Hout|].
      destruct (re_match ctor_re (strip line)) as [m|]; [|exact Hout].
      apply (fold_left_invariant
               (fun out : gset string => forall x, x ∈ out -> is_upper_name x = true));
        [exact Hout|].
      intros out' part Hout'.
      destruct (split_ws (strip part)) as [|name rest]; [exact Hout'|].
      destruct (is_upper_name name) eqn:E; [|exact Hout'].
      intros x H. apply elem_of_union in H as [H|H]; [auto|].
      apply elem_of_singleton in H as ->. exact E.
  - intros export He Hin. apply Hclass, upper_shape_is_upper_name in Hin. congruence.
Qed.

Lemma declared_names_capitalized_witness :
  "1ms" ∉ parse_class_defs ("class Functor F = {" +:+ NL +:+ "}").
Proof.
  apply (proj2 (proj2 (proj2 (declared_names_capitalized
                                ("class Functor F = {" +:+ NL +:+ "}"))))).
  reflexivity.
Defined.

(** ** Domain blocks that close *)

Lemma take_block_closed_depth (lines : list string) (brace : Z) (block : list string) :
  (brace <= 0)%Z -> take_block lines brace block = (block, lines).
Proof.
  intros H. destruct lines as [|cur rest]; simpl; [reflexivity|].
  destruct (0 <? brace)%Z eqn:E; [apply Z.ltb_lt in E; lia | reflexivity].
Qed.

Lemma take_block_closes (body : list string) (closing : string) (rest : list string)
    (brace : Z) (block : list string) :
  (0 < brace)%Z ->
  stays_open brace body = true ->
  (depth_after brace body + count_char "{" closing - count_char "}" closing <= 0)%Z ->
  take_block (body ++ closing :: rest) brace block = (block ++ body, rest).
Proof.
  revert brace block. induction body as [|cur body IH]; intros brace block Hb Hopen Hclose.
  - simpl in *. rewrite (proj2 (Z.ltb_lt 0 brace) Hb).
    destruct (0 <? brace + count_char "{" closing - count_char "}" closing)%Z eqn:E;
      [apply Z.ltb_lt in E; lia|].
    rewrite app_nil_r. apply take_block_closed_depth. exact Hclose.
  - simpl in Hopen. apply andb_prop in Hopen as [Hpos Hopen].
    simpl. rewrite (proj2 (Z.ltb_lt 0 brace) Hb), Hpos.
    rewrite (IH _ _ (proj1 (Z.ltb_lt _ _) Hpos) Hopen Hclose), <- app_assoc. reflexivity.
Qed.

(** X8.  A domain block ends at the first line on which the brace depth comes
    back to zero.  The block is the lines before that line: the closing line
    itself is dropped with whatever it holds, braces nested inside the block
    stay in it, and the scan for the next domain goes on with the line after
    the closing one. *)
Theorem domain_block_closes
    (hdr : string) (body : list string) (closing : string) (rest : list string)
    (m : captures) (out : list DomainDef) :
  re_match domain_re hdr = Some m ->
  stays_open 1 body = true ->
  (depth_after 1 body + count_char "{" closing - count_char "}" closing <= 0)%Z ->
  parse_domain_lines (hdr :: body ++ closing :: rest) out
  = parse_domain_lines rest
      (out ++ [domain_of_block (group 1 m) (strip (group 2 m)) body]).
Proof.
  intros Hhdr Hopen Hclose.
  rewrite (parse_domain_lines_open _ _ _ _ Hhdr).
  rewrite (take_block_closes body closing rest 1 [] ltac:(lia) Hopen Hclose).
  reflexivity.
Qed.

Lemma domain_block_closes_witness :
  parse_domain_defs two_domains_src
  = [mkDomainDef "Duration" "Int" [("+", "Int -> Delta -> Int")] ["1ms"] [];
     mkDomainDef "Angle" "Float" [] ["1deg"] ["right"]].
Proof.
  unfold parse_domain_defs.
  change (splitlines two_domains_src)
    with ("domain Duration over Int = {"
          :: ["  (+) : Int -> Delta -> Int"; "  1ms = Millis { n: 1 }"]
          ++ "  1s = Seconds 1 }"
          :: ("domain Angle over Float = {"
              :: ["  1deg = Degrees 1.0"; "  right = Degrees 90.0"] ++ "}" :: [])).
  rewrite (domain_block_closes "domain Duration over Int = {"
             ["  (+) : Int -> Delta -> Int"; "  1ms = Millis { n: 1 }"]
             "  1s = Seconds 1 }"
             ("domain Angle over Float = {"
              :: ["  1deg = Degrees 1.0"; "  right = Degrees 90.0"] ++ "}" :: [])
             [(2, "Int"); (1, "Duration")] []
             eq_refl eq_refl ltac:(vm_compute; discriminate)).
  rewrite (domain_block_closes "domain Angle over Float = {"
             ["  1deg = Degrees 1.0"; "  right = Degrees 90.0"] "}" []
             [(2, "Float"); (1, "Angle")] _
             eq_refl eq_refl ltac:(vm_compute; discriminate)).
  reflexivity.
Defined.

(** ** The names found in a domain block *)

Lemma ident_shape_pieces (first : ascii -> bool) (c : ascii) (t : string) :
  first c = true -> all_chars is_ident t = true ->
  ident_shape first (String c "" +:+ t +:+ "") = true.
Proof.
  intros Hc Ht. rewrite append_nil_r. change (String c "" +:+ t) with (String c t).
  simpl. rewrite Hc, Ht. reflexivity.
Qed.

Lemma domain_re_group (line : string) (m : captures) :
  re_match domain_re line = Some m -> ident_shape is_letter (group 1 m) = true.
Proof.
  intros H. apply re_match_sound in H. unfold domain_re in H. consumed.
  cbn [group app Nat.eqb]. apply ident_shape_pieces; assumption.
Qed.

Lemma named_literal_re_group (line : string) (m : captures) :
  re_match named_literal_re line = Some m -> ident_shape is_lower (group 1 m) = true.
Proof.
  intros H. apply re_match_sound in H. unfold named_literal_re in H. consumed.
  cbn [group app Nat.eqb]. apply ident_shape_pieces; assumption.
Qed.

Lemma template_re_group (line : string) (m : captures) :
  re_match template_re line = Some m -> is_suffix_template (group 1 m) = true.
Proof.
  intros H. apply re_match_sound in H. unfold template_re in H. consumed.
  apply suffix_template_iff. eexists. split; [|left; reflexivity].
  cbn [group app Nat.eqb].
  match goal with
  | |- template_shape (?ds +:+ ?l +:+ ?rest +:+ "") =>
      exists ds, (l +:+ rest); rewrite append_nil_r
  end.
  repeat split; try assumption.
  match goal with
  | Hl : is_letter ?c = true, Hr : all_chars is_ident ?t = true
    |- ident_shape is_letter (String ?c "" +:+ ?t) = true =>
      change (String c "" +:+ t) with (String c t); simpl; rewrite Hl, Hr; reflexivity
  end.
Qed.

Lemma operator_re_group (line : string) (m : captures) :
  re_match operator_re line = Some m ->
  all_chars (not_char ")") (strip (group 1 m)) = true.
Proof.
  intros H. apply re_match_sound in H. unfold operator_re in H. consumed.
  cbn [group app Nat.eqb]. unfold strip.
  apply all_chars_rstrip, all_chars_lstrip. assumption.
Qed.

Lemma classify_block_shape (block : list string) :
  Forall (fun op => all_chars (not_char ")") op.1 = true) (classify_block block).1.1
  /\ Forall (fun tpl => is_suffix_template tpl = true) (classify_block block).1.2
  /\ Forall (fun lit => ident_shape is_lower lit = true) (classify_block block).2.
Proof.
  unfold classify_block. apply fold_left_invariant.
  - repeat split; constructor.
  - intros [[ops tpls] lits] bline (Hops & Htpls & Hlits). simpl in *.
    destruct (re_match operator_re bline) as [m_op|] eqn:Eop.
    { simpl. repeat split; try assumption.
      apply Forall_app. split; [assumption|]. constructor; [|constructor].
      exact (operator_re_group _ _ Eop). }
    destruct (re_match template_re bline) as [m_tpl|] eqn:Etpl.
    { simpl. repeat split; try assumption.
      apply Forall_app. split; [assumption|]. constructor; [|constructor].
      exact (template_re_group _ _ Etpl). }
    destruct (re_match named_literal_re bline) as [m_named|] eqn:Enamed.
    { simpl. repeat split; try assumption.
      apply Forall_app. split; [assumption|]. constructor; [|constructor].
      exact (named_literal_re_group _ _ Enamed). }
    simpl. repeat split; assumption.
Qed.

Lemma domain_of_block_shape (dname dcarrier : string) (block : list string) :
  ident_shape is_letter dname = true ->
  domain_def_shape (domain_of_block dname dcarrier block).
Proof.
  intros Hname. pose proof (classify_block_shape block) as H.
  unfold domain_of_block, domain_def_shape.
  destruct (classify_block block) as [[ops tpls] lits]. simpl in *.
  destruct H as (Hops & Htpls & Hlits). repeat split; assumption.
Qed.

Lemma parse_domain_lines_shape (lines : list string) (out : list DomainDef) :
  Forall domain_def_shape out -> Forall domain_def_shape (parse_domain_lines lines out).
Proof.
  remember (length lines) as n eqn:Hn. revert lines out Hn.
  induction n as [n IH] using lt_wf_ind. intros lines out Hn Hout.
  destruct lines as [|line rest].
  - simp parse_domain_lines.
  - destruct (re_match domain_re line) as [m|] eqn:E.
    + rewrite (parse_domain_lines_open _ _ _ _ E).
      pose proof (take_block_length rest 1 []) as Hlen. simpl in Hn.
      apply (IH (length (take_block rest 1 []).2) ltac:(lia) _ _ eq_refl).
      apply Forall_app. split; [assumption|]. constructor; [|constructor].
      apply domain_of_block_shape. exact (domain_re_group _ _ E).
    + rewrite (parse_domain_lines_skip _ _ _ E). simpl in Hn.
      apply (IH (length rest) ltac:(lia) rest out eq_refl Hout).
Qed.

(** X9.  Whatever the source text, every domain that [parse_domain_defs]
    returns has a name made of a letter followed by letters, digits and
    underscores; each of its templates is accepted by [is_suffix_template];
    each of its named literals is a lower-case letter followed by letters,
    digits and underscores; and no operator name holds a closing
    parenthesis. *)
Theorem parse_domain_defs_shape (aivi_source : string) :
  Forall domain_def_shape (parse_domain_defs aivi_source).
Proof.
  unfold parse_domain_defs. apply parse_domain_lines_shape. constructor.
Qed.

(** ** Where the files go *)

Lemma ident_shape_prefix (first : ascii -> bool) (a b : string) :
  ident_shape first a = true -> all_chars is_ident b = true ->
  ident_shape first (a +:+ b) = true.
Proof.
  destruct a as [|c a]; [discriminate|]. rewrite append_cons. simpl.
  intros H Hb. apply andb_prop in H as [-> Ha]. rewrite all_chars_append, Ha, Hb. reflexivity.
Qed.

Lemma module_segments_nonempty (module_name : string) : module_segments module_name <> [].
Proof.
  intros E. pose proof (module_segments_length module_name) as H.
  pose proof (count_char_nonneg "." module_name). rewrite E in H. simpl in H. lia.
Qed.

Lemma basic_export_file_placed (modname export_name : string) (td : gset string)
    (rt : odict (odict string)) (ce : gset string) (p : path) (text : string) :
  basic_export_file modname export_name td rt ce = Some (p, text) -> placed p text.
Proof.
  unfold basic_export_file. cbv zeta. rewrite !append_assoc. intros H.
  assert (Hnames : names_case (module_segments modname ++ [sanitize_segment export_name +:+ ".aivi"])
                     (module_segments modname) (sanitize_segment export_name)).
  { split; [reflexivity|]. split; [apply module_segments_nonempty|].
    split; [apply module_segments_idents | apply sanitize_segment_ident]. }
  destruct (startswith export_name "domain "); [discriminate H|].
  destruct (is_upper_name export_name); [destruct (bool_decide _)|];
    injection H as <- <-; exists (module_segments modname), (sanitize_segment export_name);
    (split; [exact Hnames | eexists; reflexivity]).
Qed.

Lemma domain_files_placed (modname aivi_src : string) (domain : DomainDef)
    (p : path) (text : string) :
  In (p, text) (domain_files modname aivi_src domain) -> placed p text.
Proof.
  unfold domain_files. cbv zeta. intros H.
  assert (Hdirs : forall case,
             ident_shape is_letter case = true ->
             names_case
               ((module_segments modname ++ ["domain_" +:+ sanitize_segment (name domain)])
                  ++ [case +:+ ".aivi"])
               (module_segments modname ++ ["domain_" +:+ sanitize_segment (name domain)])
               case).
  { intros case Hcase. split; [reflexivity|]. split.
    { intros E. apply app_eq_nil in E as [_ E]. discriminate E. }
    split; [|exact Hcase]. apply Forall_app. split; [apply module_segments_idents|].
    constructor; [|constructor].
    apply ident_shape_prefix; [reflexivity|].
    apply ident_shape_letter_ident, sanitize_segment_ident. }
  apply in_app_or in H as [H|H]; apply in_map_iff in H as (x & H & _);
    injection H as <- <-.
  - exists (module_segments modname ++ ["domain_" +:+ sanitize_segment (name domain)]),
      ("suffix_" +:+ sanitize_segment (strip_leading_digits x)).
    split.
    + apply Hdirs, ident_shape_prefix; [reflexivity|].
      apply ident_shape_letter_ident, sanitize_segment_ident.
    + rewrite <- !app_assoc, !append_assoc. eexists. reflexivity.
  - exists (module_segments modname ++ ["domain_" +:+ sanitize_segment (name domain)]),
      ("literal_" +:+ sanitize_segment x).
    split.
    + apply Hdirs, ident_shape_prefix; [reflexivity|].
      apply ident_shape_letter_ident, sanitize_segment_ident.
    + rewrite <- !app_assoc, !append_assoc. eexists. reflexivity.
Qed.

Lemma loop_output_placed (files : list (string * string)) (p : path) (text : string) :
  In (p, text) (loop_output files).1 -> placed p text.
Proof.
  intros H. apply loop_output_origin in H as (fname & rs_text & ws & n & _ & Hout & Hf).
  unfold file_output in Hout.
  destruct (parse_module_name rs_text) as [modname|]; [|discriminate].
  destruct (parse_aivi_source rs_text) as [src|]; [|discriminate].
  simpl in Hout. injection Hout as <- <-.
  apply in_app_or in Hf as [Hf|Hf].
  - unfold export_files in Hf. apply in_flat_map in Hf as (e & _ & Hf).
    destruct (startswith e "domain "); [destruct Hf|].
    destruct (bool_decide _); [destruct Hf|].
    destruct (basic_export_file _ _ _ _ _) as [f|] eqn:E; [|destruct Hf].
    destruct Hf as [->|[]]. exact (basic_export_file_placed _ _ _ _ _ _ _ E).
  - apply in_flat_map in Hf as (d & _ & Hf). exact (domain_files_placed _ _ _ _ _ Hf).
Qed.

Lemma last_write_other (p : path) (ws : list (path * string)) (acc : option string) :
  (forall t, ~ In (p, t) ws) -> fold_left (last_write p) ws acc = acc.
Proof.
  revert acc. induction ws as [|[q u] ws IH]; intros acc H; simpl; [reflexivity|].
  rewrite IH by (intros t Hin; apply (H t); right; exact Hin).
  unfold last_write. simpl. destruct (decide (q = p)) as [->|]; [|reflexivity].
  exfalso. apply (H u). left. reflexivity.
Qed.

Lemma last_write_some (p : path) (ws : list (path * string)) (acc : option string) :
  is_Some acc -> is_Some (fold_left (last_write p) ws acc).
Proof.
  revert acc. induction ws as [|f ws IH]; intros acc H; simpl; [exact H|].
  apply IH. unfold last_write. destruct (decide (f.1 = p)); [eexists; reflexivity | exact H].
Qed.

(** X10.  Whatever the source files hold, a file that is in the output tree
    after a run and was not there with that text before sits at a path made
    of identifiers only: one directory or more and a file name that is an
    identifier followed by the extension, so no component is empty, a dot
    or a parent reference, or holds a separator.  Its text opens with the
    header of the test module spelled by the same components. *)
Theorem written_files_placed
    (STDLIB_SRC OUT : string) (dir : option (list (string * string))) (fs : tree)
    (p : path) (text : string) :
  (main STDLIB_SRC OUT dir fs).1 !! p = Some text ->
  fs !! p = Some text \/ placed p text.
Proof.
  destruct dir as [entries|]; [|left; assumption].
  rewrite main_eq. cbn [fst]. intros H.
  apply write_all_origin in H as [H|H]; [left; exact H|right].
  exact (loop_output_placed _ _ _ H).
Qed.

Lemma written_files_placed_witness :
  exists text,
    (main "/repo/crates/aivi/src/stdlib" "/repo/integration-tests/stdlib" (Some listing_a) ∅).1
      !! ["aivi"; "duration"; "domain_Duration"; "suffix_ms.aivi"] = Some text
    /\ placed ["aivi"; "duration"; "domain_Duration"; "suffix_ms.aivi"] text.
Proof.
  pose proof (written_files_placed "/repo/crates/aivi/src/stdlib"
                "/repo/integration-tests/stdlib" (Some listing_a) ∅
                ["aivi"; "duration"; "domain_Duration"; "suffix_ms.aivi"]) as H.
  destruct ((main "/repo/crates/aivi/src/stdlib" "/repo/integration-tests/stdlib"
               (Some listing_a) ∅).1
              !! ["aivi"; "duration"; "domain_Duration"; "suffix_ms.aivi"])
    as [text|] eqn:E.
  - exists text. split; [reflexivity|].
    destruct (H text E) as [H0|Hp]; [|exact Hp].
    rewrite lookup_empty in H0. discriminate H0.
  - vm_compute in E. discriminate E.
Defined.

(** X11.  A run never removes a file of the output tree, and it leaves
    every path alone that is not a file name with the extension below a
    directory of identifiers: what was there stays as it was. *)
Theorem main_keeps_other_files
    (STDLIB_SRC OUT : string) (dir : option (list (string * string))) (fs : tree) (p : path) :
  (is_Some (fs !! p) -> is_Some ((main STDLIB_SRC OUT dir fs).1 !! p))
  /\ ((forall dirs case, ~ names_case p dirs case) ->
      (main STDLIB_SRC OUT dir fs).1 !! p = fs !! p).
Proof.
  destruct dir as [entries|]; [|split; auto].
  rewrite main_eq. cbn [fst]. rewrite write_all_lookup. split.
  - apply last_write_some.
  - intros H. apply last_write_other. intros t Hin.
    apply loop_output_placed in Hin as (dirs & case & Hn & _). exact (H dirs case Hn).
Qed.

Lemma main_keeps_other_files_witness :
  (main "/repo/crates/aivi/src/stdlib" "/repo/integration-tests/stdlib" (Some listing_a)
     {[ ["README.md"] := "kept" ]}).1 !! ["README.md"]
  = Some "kept".
Proof.
  rewrite (proj2 (main_keeps_other_files "/repo/crates/aivi/src/stdlib"
                    "/repo/integration-tests/stdlib" (Some listing_a)
                    {[ ["README.md"] := "kept" ]} ["README.md"])).
  - apply lookup_singleton_eq.
  - intros dirs case (Hp & Hd & _).
    destruct dirs as [|d [|d' dirs]]; [congruence | discriminate Hp | discriminate Hp].
Defined.

(** ** The entries a run reads *)

Lemma filter_StronglySorted {A : Type} (R : A -> A -> Prop) (f : A -> bool) (l : list A) :
  StronglySorted R l -> StronglySorted R (List.filter f l).
Proof.
  induction 1 as [|x l Hl IH Hx]; simpl; [constructor|].
  destruct (f x); [|exact IH]. constructor; [exact IH|].
  apply List.Forall_forall. intros y Hy. apply filter_In in Hy as [Hy _].
  exact (proj1 (List.Forall_forall _ _) Hx y Hy).
Qed.

Lemma filter_Permutation_bool {A : Type} (f : A -> bool) (l1 l2 : list A) :
  l1 ≡ₚ l2 -> List.filter f l1 ≡ₚ List.filter f l2.
Proof.
  induction 1 as [|x l1 l2 _ IH|x y l|l1 l2 l3 _ IH1 _ IH2]; simpl.
  - reflexivity.
  - destruct (f x); [constructor|]; exact IH.
  - destruct (f x), (f y); try reflexivity. apply perm_swap.
  - etransitivity; eassumption.
Qed.

Lemma processed_glob_rs (entries : list (string * string)) :
  processed (glob_rs entries) = processed (glob_rs (List.filter is_source entries)).
Proof.
  unfold processed, glob_rs, is_source.
  induction entries as [|e entries IH]; simpl; [reflexivity|].
  destruct (endswith e.1 ".rs") eqn:Ers; simpl; [|exact IH].
  destruct (negb (String.eqb e.1 "mod.rs")) eqn:Emod; simpl; rewrite ?Ers; simpl;
    rewrite ?Emod, IH; reflexivity.
Qed.

Lemma processed_sorted_files (entries : list (string * string)) :
  NoDup (entries.*1) ->
  processed (sorted_files entries) = processed (sorted_files (List.filter is_source entries)).
Proof.
  intros Hnd. unfold sorted_files.
  assert (Hin : forall l x, x ∈ processed (merge_sort by_name (glob_rs l)) -> x ∈ l).
  { intros l x Hx. apply glob_rs_elem. rewrite <- (merge_sort_Permutation by_name).
    unfold processed in Hx. rewrite list_elem_of_In in Hx. apply filter_In in Hx as [Hx _].
    apply list_elem_of_In. exact Hx. }
  apply (StronglySorted_unique_strong by_name).
  - intros x1 x2 H1 H2 R12 R21.
    apply (same_name_same_entry entries); [exact Hnd| | |].
    + exact (Hin _ _ H1).
    + apply Hin in H2. rewrite list_elem_of_In in H2. apply filter_In in H2 as [H2 _].
      apply list_elem_of_In. exact H2.
    + apply (anti_symm String.le); assumption.
  - apply filter_StronglySorted, StronglySorted_merge_sort; apply _.
  - apply filter_StronglySorted, StronglySorted_merge_sort; apply _.
  - unfold processed.
    rewrite (filter_Permutation_bool _ _ _ (merge_sort_Permutation by_name (glob_rs entries))).
    rewrite (filter_Permutation_bool _ _ _
               (merge_sort_Permutation by_name (glob_rs (List.filter is_source entries)))).
    fold (processed (glob_rs entries)).
    fold (processed (glob_rs (List.filter is_source entries))).
    rewrite <- processed_glob_rs. reflexivity.
Qed.

(** X12.  A run reads only the entries of the source directory whose name
    ends in the Rust extension and is not [mod.rs]: with every other entry
    taken out of the listing (the names of a directory being distinct) the
    output tree and what is printed or raised are the same.  So [mod.rs] and
    files of other kinds may hold anything, also text without the two
    markers. *)
Theorem main_reads_only_sources
    (STDLIB_SRC OUT : string) (entries : list (string * string)) (fs : tree) :
  NoDup (entries.*1) ->
  main STDLIB_SRC OUT (Some entries) fs
  = main STDLIB_SRC OUT (Some (List.filter is_source entries)) fs.
Proof.
  intros Hnd. unfold main.
  rewrite (main_loop_processed (sorted_files entries)),
    (main_loop_processed (sorted_files (List.filter is_source entries))),
    (processed_sorted_files entries Hnd).
  reflexivity.
Qed.

Lemma main_reads_only_sources_witness :
  main "/repo/crates/aivi/src/stdlib" "/repo/integration-tests/stdlib"
    (Some [("example.rs", example_rs); ("mod.rs", "pub mod example;");
           ("notes.txt", broken_rs); ("duration.rs", duration_rs)]) ∅
  = main "/repo/crates/aivi/src/stdlib" "/repo/integration-tests/stdlib"
      (Some [("example.rs", example_rs); ("duration.rs", duration_rs)]) ∅.
Proof.
  apply (main_reads_only_sources _ _
           [("example.rs", example_rs); ("mod.rs", "pub mod example;");
            ("notes.txt", broken_rs); ("duration.rs", duration_rs)] ∅).
  apply (bool_decide_unpack _). vm_compute. exact I.
Defined.

(** ** What the extractor returns *)

Lemma prefix_iff (s1 s2 : string) :
  String.prefix s1 s2 = true <-> exists after, s2 = s1 +:+ after.
Proof.
  revert s2. induction s1 as [|a s1 IH]; intros s2.
  - destruct s2; simpl; split; eauto.
  - destruct s2 as [|b s2]; simpl.
    + split; [discriminate|]. intros [after H]. discriminate H.
    + destruct (ascii_dec a b) as [->|Hne].
      * rewrite IH. split; intros [after H]; exists after.
        -- rewrite H. reflexivity.
        -- rewrite append_cons in H. injection H as H. exact H.
      * split; [discriminate|]. intros [after H]. rewrite append_cons in H.
        injection H as H _. congruence.
Qed.

Lemma occurs_at_0 (sub s : string) : occurs_at sub s 0 <-> String.prefix sub s = true.
Proof.
  rewrite prefix_iff. split.
  - intros (before & after & -> & Hlen). destruct before; [|discriminate Hlen]. eauto.
  - intros [after ->]. exists "", after. auto.
Qed.

Lemma occurs_at_S (sub : string) (c : ascii) (s : string) (i : nat) :
  occurs_at sub (String c s) (S i) <-> occurs_at sub s i.
Proof.
  split.
  - intros (before & after & H & Hlen). destruct before as [|b before]; [discriminate Hlen|].
    rewrite append_cons in H. injection H as _ H. injection Hlen as Hlen.
    exists before, after. auto.
  - intros (before & after & -> & Hlen). exists (String c before), after.
    split; [reflexivity|]. simpl. rewrite Hlen. reflexivity.
Qed.

Lemma index_Some (n : nat) (sub s : string) (i : nat) :
  String.index n sub s = Some i ->
  n <= i /\ occurs_at sub s i /\ forall j, n <= j -> j < i -> ~ occurs_at sub s j.
Proof.
  revert n i. induction s as [|b s IH]; intros n i.
  - destruct n; simpl; [|discriminate]. destruct sub; [|discriminate].
    intros [= <-]. split; [lia|]. split; [|intros j _ Hj; lia].
    exists "", "". auto.
  - destruct n as [|n].
    + cbn [String.index]. destruct (String.prefix sub (String b s)) eqn:Ep.
      * intros [= <-]. split; [lia|]. split; [apply occurs_at_0, Ep | intros j _ Hj; lia].
      * destruct (String.index 0 sub s) as [k|] eqn:Ek; [|discriminate].
        intros [= <-]. destruct (IH 0 k Ek) as (_ & Hocc & Hmin).
        split; [lia|]. split; [apply occurs_at_S, Hocc|].
        intros [|j] _ Hj.
        -- rewrite occurs_at_0, Ep. discriminate.
        -- rewrite occurs_at_S. apply Hmin; lia.
    + cbn [String.index]. destruct (String.index n sub s) as [k|] eqn:Ek; [|discriminate].
      intros [= <-]. destruct (IH n k Ek) as (Hle & Hocc & Hmin).
      split; [lia|]. split; [apply occurs_at_S, Hocc|].
      intros [|j] Hn Hj; [lia|]. rewrite occurs_at_S. apply Hmin; lia.
Qed.

Lemma index_None (n : nat) (sub s : string) :
  sub <> "" -> String.index n sub s = None -> forall j, n <= j -> ~ occurs_at sub s j.
Proof.
  intros Hsub. revert n. induction s as [|b s IH]; intros n.
  - intros _ j _ (before & after & H & _).
    destruct before; [destruct sub; [congruence | discriminate H] | discriminate H].
  - destruct n as [|n].
    + cbn [String.index]. destruct (String.prefix sub (String b s)) eqn:Ep; [discriminate|].
      destruct (String.index 0 sub s) as [k|] eqn:Ek; [discriminate|].
      intros _ [|j] _.
      * rewrite occurs_at_0, Ep. discriminate.
      * rewrite occurs_at_S. apply (IH 0 Ek). lia.
    + cbn [String.index]. destruct (String.index n sub s) as [k|] eqn:Ek; [discriminate|].
      intros _ [|j] Hn; [lia|]. rewrite occurs_at_S. apply (IH n Ek). lia.
Qed.

Lemma occurs_at_shift (sub a r : string) (j : nat) :
  occurs_at sub (a +:+ r) (String.length a + j) <-> occurs_at sub r j.
Proof.
  induction a as [|c a IH]; [reflexivity|].
  rewrite append_cons. simpl. rewrite occurs_at_S. exact IH.
Qed.

Lemma substring_middle (a m rest : string) :
  String.substring (String.length a) (String.length m) (a +:+ m +:+ rest) = m.
Proof.
  induction a as [|c a IH]; [|rewrite append_cons; exact IH].
  change ("" +:+ m +:+ rest) with (m +:+ rest). simpl String.length.
  induction m as [|c m IHm]; [destruct rest; reflexivity|].
  rewrite append_cons. simpl. rewrite IHm. reflexivity.
Qed.

(** X13.  The module source that is extracted is the text between the first
    occurrence of the opening marker and the first occurrence of the
    terminator after that marker: the file is some text without the marker
    before its last character, the marker, the source, the terminator and
    the rest, and the terminator does not begin inside the source.  The
    first error is raised exactly when the file does not hold the marker,
    the second exactly when no terminator follows the first marker. *)
Theorem parse_aivi_source_between_markers (rs_text : string) :
  match parse_aivi_source rs_text with
  | Ok src =>
      exists before after,
        rs_text = before +:+ source_marker +:+ src +:+ source_terminator +:+ after
        /\ (forall j, j < String.length before -> ~ occurs_at source_marker rs_text j)
        /\ (forall j, j < String.length src ->
                      ~ occurs_at source_terminator (src +:+ source_terminator +:+ after) j)
  | Raise e =>
      (e = ValueError "missing SOURCE marker"
       /\ forall j, ~ occurs_at source_marker rs_text j)
      \/ (e = ValueError "missing SOURCE terminator"
          /\ exists before rest,
               rs_text = before +:+ source_marker +:+ rest
               /\ (forall j, j < String.length before -> ~ occurs_at source_marker rs_text j)
               /\ forall j, ~ occurs_at source_terminator rest j)
  end.
Proof.
  unfold parse_aivi_source, find. cbv zeta.
  destruct (String.index 0 source_marker rs_text) as [i|] eqn:Ei.
  2:{ change (-1 <? 0)%Z with true. cbv iota. left. split; [reflexivity|].
      intros j. apply (index_None 0 source_marker rs_text); [discriminate | exact Ei | lia]. }
  destruct (Z.ltb_spec (Z.of_nat i) 0) as [Hneg|_]; [lia|].
  destruct (index_Some _ _ _ _ Ei) as (_ & (before & rest & Hrs & Hlen) & Hfirst).
  assert (Hstart : Z.to_nat (Z.of_nat i + Z.of_nat (String.length source_marker))
                   = String.length (before +:+ source_marker))
    by (rewrite length_append; lia).
  rewrite Hstart. rewrite <- append_assoc in Hrs.
  destruct (String.index (String.length (before +:+ source_marker)) source_terminator rs_text)
    as [e|] eqn:Ee.
  2:{ change (-1 <? 0)%Z with true. cbv iota. right. split; [reflexivity|].
      exists before, rest. split; [rewrite Hrs; apply append_assoc|].
      split; [intros j Hj; apply Hfirst; lia|].
      intros j Hocc. apply (occurs_at_shift _ (before +:+ source_marker)) in Hocc.
      rewrite <- Hrs in Hocc. revert Hocc.
      apply (index_None (String.length (before +:+ source_marker)) source_terminator rs_text);
        [discriminate | exact Ee | lia]. }
  destruct (Z.ltb_spec (Z.of_nat e) 0) as [Hneg|_]; [lia|].
  destruct (index_Some _ _ _ _ Ee) as (Hle & Hocc & Hmin).
  replace e with (String.length (before +:+ source_marker)
                  + (e - String.length (before +:+ source_marker))) in Hocc, Hmin |- * by lia.
  set (n := e - String.length (before +:+ source_marker)) in *.
  rewrite Hrs in Hocc. apply occurs_at_shift in Hocc as (src & after & Hrest & Hsrc).
  unfold slice. rewrite Nat2Z.id.
  replace (String.length (before +:+ source_marker) + n
           - String.length (before +:+ source_marker)) with (String.length src) by lia.
  assert (Hsub : String.substring (String.length (before +:+ source_marker))
                    (String.length src) rs_text = src)
    by (rewrite Hrs, Hrest; apply substring_middle).
  rewrite Hsub.
  exists before, after. split; [rewrite Hrs, Hrest; apply append_assoc|].
  split; [intros j Hj; apply Hfirst; lia|].
  intros j Hj Hocc. rewrite <- Hrest in Hocc.
  apply (occurs_at_shift _ (before +:+ source_marker)) in Hocc. rewrite <- Hrs in Hocc.
  revert Hocc. apply Hmin; lia.
Qed.

(** X14.  The module name that is extracted is never empty and holds no
    double quote, whatever else it holds; it stands between double quotes
    after the name of the constant, its type and the equals sign, with any
    white space between these, somewhere in the file.  The only error is the
    one for a missing name, and it is raised whenever the name of the
    constant is not in the file. *)
Theorem parse_module_name_quoted (rs_text : string) :
  match parse_module_name rs_text with
  | Ok modname =>
      nonempty modname = true
      /\ all_chars (not_char "034") modname = true
      /\ exists before w1 w2 w3 after,
           all_chars isspace w1 = true /\ all_chars isspace w2 = true
           /\ all_chars isspace w3 = true
           /\ rs_text = before +:+ "MODULE_NAME:" +:+ w1 +:+ "&str" +:+ w2 +:+ "=" +:+ w3
                         +:+ DQ +:+ modname +:+ DQ +:+ after
  | Raise e => e = ValueError "missing MODULE_NAME"
  end
  /\ ((forall j, ~ occurs_at "MODULE_NAME:" rs_text j) ->
      parse_module_name rs_text = Raise (ValueError "missing MODULE_NAME")).
Proof.
  assert (Hok : forall m, re_search module_name_re rs_text = Some m ->
                  nonempty (group 1 m) = true
                  /\ all_chars (not_char "034") (group 1 m) = true
                  /\ exists before w1 w2 w3 after,
                       all_chars isspace w1 = true /\ all_chars isspace w2 = true
                       /\ all_chars isspace w3 = true
                       /\ rs_text = before +:+ "MODULE_NAME:" +:+ w1 +:+ "&str" +:+ w2 +:+ "="
                                     +:+ w3 +:+ DQ +:+ group 1 m +:+ DQ +:+ after).
  { intros m H. apply re_search_sound in H as (before & pre & after & -> & H).
    unfold module_name_re in H. consumed. cbn [group app Nat.eqb].
    split; [assumption|]. split; [assumption|].
    match goal with
    | |- context [before +:+ ("MODULE_NAME:" +:+ ?a +:+ "&str" +:+ ?b +:+ "=" +:+ ?c +:+ _)
                  +:+ after] =>
        exists before, a, b, c, after
    end.
    repeat (split; [assumption|]).
    rewrite !append_assoc, ?append_nil_r. reflexivity. }
  unfold parse_module_name.
  destruct (re_search module_name_re rs_text) as [m|] eqn:E.
  - split; [exact (Hok m eq_refl)|]. intros Hnone. exfalso.
    destruct (Hok m eq_refl) as (_ & _ & before & w1 & w2 & w3 & after & _ & _ & _ & Hrs).
    apply (Hnone (String.length before)). exists before. eexists. split; [exact Hrs|reflexivity].
  - split; [reflexivity|]. intros _. reflexivity.
Qed.

Lemma parse_module_name_quoted_witness :
  parse_module_name broken_rs = Raise (ValueError "missing MODULE_NAME").
Proof.
  apply (proj2 (parse_module_name_quoted broken_rs)). intros j.
  apply (index_None 0 "MODULE_NAME:" broken_rs); [discriminate | vm_compute; reflexivity | lia].
Defined.

(** ** The record model *)

Lemma od_set_keys {V : Type} (k : string) (v : V) (d : odict V) (x : string) :
  x ∈ (od_set k v d).*1 -> x = k \/ x ∈ d.*1.
Proof.
  induction d as [|[k' v'] d IH]; simpl.
  - intros H. apply list_elem_of_singleton in H. auto.
  - destruct (String.eqb_spec k' k) as [->|Hne]; simpl; intros H;
      apply elem_of_cons in H as [->|H]; auto.
    + right. apply elem_of_cons. auto.
    + right. apply elem_of_cons. auto.
    + destruct (IH H) as [->|Hin]; auto. right. apply elem_of_cons. auto.
Qed.

Lemma od_set_shape {V : Type} (P : string * V -> Prop) (k : string) (v : V) (d : odict V) :
  od_shape P d -> P (k, v) -> od_shape P (od_set k v d).
Proof.
  intros [Hnd Hall] Hkv. induction d as [|[k' v'] d IH]; simpl.
  - split; [apply NoDup_singleton | constructor; [exact Hkv | constructor]].
  - simpl in Hnd. apply NoDup_cons in Hnd as [Hk' Hnd]. apply Forall_cons in Hall as [Hp Hall].
    destruct (String.eqb_spec k' k) as [->|Hne].
    + split; [simpl; apply NoDup_cons; auto | constructor; assumption].
    + destruct (IH Hnd Hall) as [Hnd' Hall']. split; [|constructor; assumption].
      simpl. apply NoDup_cons. split; [|exact Hnd'].
      intros Hin. apply od_set_keys in Hin as [->|Hin]; [congruence | auto].
Qed.

Lemma record_re_group (line : string) (m : captures) :
  re_match record_re line = Some m -> ident_shape is_upper (group 1 m) = true.
Proof.
  intros H. apply re_match_sound in H. unfold record_re in H. consumed. assumption.
Qed.

Lemma field_re_group (item : string) (m : captures) :
  re_match field_re item = Some m -> ident_shape is_lower (group 1 m) = true.
Proof.
  intros H. apply re_match_sound in H. unfold field_re in H. consumed.
  cbn [group app Nat.eqb]. apply ident_shape_pieces; assumption.
Qed.

Lemma record_fields_shape (body : string) : od_shape field_shape (record_fields body).
Proof.
  assert (Hnil : od_shape field_shape []) by (split; constructor).
  unfold record_fields. destruct (nonempty body); [|exact Hnil].
  apply fold_left_invariant; [exact Hnil|].
  intros fields part Hfields.
  destruct (negb (nonempty (strip part))); [exact Hfields|].
  destruct (re_match field_re (strip part)) as [fm|] eqn:E; [|exact Hfields].
  apply od_set_shape; [exact Hfields|].
  split; [exact (field_re_group _ _ E) | apply strip_idem].
Qed.

Lemma parse_record_type_aliases_shape (aivi_source : string) :
  od_shape record_shape (parse_record_type_aliases aivi_source).
Proof.
  unfold parse_record_type_aliases. apply fold_left_invariant; [split; constructor|].
  intros out line Hout.
  destruct (re_match record_re line) as [m|] eqn:E; [|exact Hout].
  apply od_set_shape; [exact Hout|].
  split; [exact (record_re_group _ _ E) | apply record_fields_shape].
Qed.

(** X15.  In the record model of a module every record name is a capitalized
    identifier and is recorded once (a later declaration of the same name
    replaces the fields of the earlier one); every field name is a
    lower-case identifier, recorded once per record, and every field type is
    free of surrounding white space.  So only a type expression that is one
    capitalized identifier can be found in the model: an expression with an
    argument, a parenthesis or a space is never taken for a record. *)
Theorem record_model_shapes (aivi_source : string) :
  od_shape record_shape (parse_record_type_aliases aivi_source)
  /\ forall ty fields,
       od_get ty (parse_record_type_aliases aivi_source) = Some fields ->
       ident_shape is_upper ty = true /\ od_shape field_shape fields.
Proof.
  pose proof (parse_record_type_aliases_shape aivi_source) as H. split; [exact H|].
  intros ty fields Hget. apply od_get_In in Hget. destruct H as [_ H].
  exact (proj1 (List.Forall_forall _ _) H (ty, fields) Hget).
Qed.

Lemma record_model_shapes_witness :
  ident_shape is_upper "Pair" = true
  /\ od_shape field_shape [("p", "(Int"); ("q", "Int")].
Proof.
  apply (proj2 (record_model_shapes pair_src) "Pair" [("p", "(Int"); ("q", "Int")]).
  reflexivity.
Defined.

(** ** The layout of a type expression *)

Lemma split_ws_go_run (w rest cur : string) :
  all_chars nonspace w = true -> split_ws_go (w +:+ rest) cur = split_ws_go rest (cur +:+ w).
Proof.
  revert cur. induction w as [|c w IH]; intros cur H.
  - rewrite append_nil_r. reflexivity.
  - simpl in H. apply andb_prop in H as [Hc Hw]. rewrite append_cons. simpl.
    unfold nonspace in Hc. apply negb_true_iff in Hc. rewrite Hc, (IH _ Hw).
    unfold snoc. rewrite append_assoc. reflexivity.
Qed.

Lemma split_ws_go_words (s cur : string) :
  cur = "" \/ word cur = true -> Forall (fun w => word w = true) (split_ws_go s cur).
Proof.
  revert cur. induction s as [|c s IH]; intros cur Hcur; simpl.
  - destruct cur; [constructor|]. destruct Hcur as [Hcur|Hcur]; [discriminate Hcur|].
    constructor; [exact Hcur | constructor].
  - destruct (isspace c) eqn:Ec.
    + destruct (nonempty cur) eqn:En; [|apply IH; auto].
      constructor; [|apply IH; auto].
      destruct Hcur as [->|Hcur]; [discriminate En | exact Hcur].
    + apply IH. right. unfold word, snoc. rewrite all_chars_append. simpl.
      unfold nonspace at 2. rewrite Ec. simpl.
      destruct Hcur as [->|Hcur]; [reflexivity|].
      unfold word in Hcur. apply andb_prop in Hcur as [Hne ->].
      destruct cur; [discriminate Hne | reflexivity].
Qed.

Lemma split_ws_join (ws : list string) :
  Forall (fun w => word w = true) ws -> split_ws (join " " ws) = ws.
Proof.
  unfold split_ws, join. induction 1 as [|w ws Hw Hws IH]; [reflexivity|].
  unfold word in Hw. apply andb_prop in Hw as [Hne Hw].
  destruct ws as [|x xs].
  - simpl. rewrite <- (append_nil_r w), (split_ws_go_run w "" "" Hw).
    change ("" +:+ w) with w. simpl. rewrite Hne, append_nil_r. reflexivity.
  - change (String.concat " " (w :: x :: xs))
      with (w +:+ String " " (String.concat " " (x :: xs))).
    rewrite (split_ws_go_run w _ "" Hw). change ("" +:+ w) with w.
    cbn [split_ws_go]. change (isspace " ") with true. cbv iota.
    rewrite Hne, IH. reflexivity.
Qed.

Lemma split_ws_lstrip (s : string) :
  split_ws_go (lstrip_by isspace s) "" = split_ws_go s "".
Proof.
  induction s as [|c s IH]; [reflexivity|]. simpl.
  destruct (isspace c) eqn:Ec; [exact IH|]. simpl. rewrite Ec. reflexivity.
Qed.

Lemma split_ws_rstrip (s cur : string) :
  split_ws_go (rstrip_by isspace s) cur = split_ws_go s cur.
Proof.
  revert cur. induction s as [|c s IH]; intros cur; [reflexivity|]. simpl.
  destruct (rstrip_by isspace s) as [|d r] eqn:Er; simpl.
  - destruct (isspace c) eqn:Ec; simpl.
    + rewrite <- (IH ""). simpl. destruct (nonempty cur); reflexivity.
    + rewrite Ec, <- IH. reflexivity.
  - destruct (isspace c) eqn:Ec; rewrite <- !IH; reflexivity.
Qed.

Lemma normalize_split_ws (ty : string) : normalize ty = join " " (split_ws ty).
Proof.
  unfold normalize, strip, split_ws. rewrite split_ws_rstrip, split_ws_lstrip. reflexivity.
Qed.

Lemma normalize_idem (ty : string) : normalize (normalize ty) = normalize ty.
Proof.
  rewrite (normalize_split_ws (normalize ty)), (normalize_split_ws ty).
  rewrite split_ws_join; [reflexivity|]. apply split_ws_go_words. auto.
Qed.

(** X16.  The synthesizer looks at a type expression only through its words:
    two expressions with the same words, however the white space between
    and around them is laid out, get the same result at every depth of
    recursion.  Bringing the expression to single spaces is idempotent, so
    an expression that was normalized already is synthesized as it is. *)
Theorem sample_depends_on_words
    (fuel : nat) (ty1 ty2 : string) (rt : odict (odict string)) (dt dn : list string) :
  split_ws ty1 = split_ws ty2 ->
  normalize ty1 = normalize ty2
  /\ normalize (normalize ty1) = normalize ty1
  /\ split_ws (normalize ty1) = split_ws ty1
  /\ sample_expr_for_type fuel ty1 rt dt dn = sample_expr_for_type fuel ty2 rt dt dn
  /\ sample_expr_for_type fuel (normalize ty1) rt dt dn
     = sample_expr_for_type fuel ty1 rt dt dn.
Proof.
  intros H.
  assert (Hn : normalize ty1 = normalize ty2)
    by (rewrite !normalize_split_ws, H; reflexivity).
  split; [exact Hn|]. split; [apply normalize_idem|]. split.
  { rewrite normalize_split_ws. apply split_ws_join, split_ws_go_words. auto. }
  destruct fuel as [|fuel]; [split; reflexivity|].
  rewrite !sample_eq. cbv zeta. rewrite normalize_idem, Hn. split; reflexivity.
Qed.

Lemma sample_depends_on_words_witness :
  sample_expr_for_type 3 "  ( Int ,   Text )  " [] [] []
  = sample_expr_for_type 3 "( Int , Text )" [] [] [].
Proof.
  assert (H : split_ws "  ( Int ,   Text )  " = split_ws "( Int , Text )")
    by (vm_compute; reflexivity).
  exact (proj1 (proj2 (proj2 (proj2
           (sample_depends_on_words 3 "  ( Int ,   Text )  " "( Int , Text )" [] [] [] H))))).
Defined.

(** ** The splitter on flat text *)

Lemma split_on_cons (sep : ascii) (s : string) : exists h t, split_on sep s = h :: t.
Proof.
  destruct s as [|c s]; simpl; [eauto|].
  destruct (Ascii.eqb c sep); [eauto|]. destruct (split_on sep s); eauto.
Qed.

Lemma split_loop_flat (text : string) (parts : list string) (cur : string) :
  flat text = true ->
  forall h t, split_on "," text = h :: t ->
  split_loop text parts cur 0
  = (parts ++ List.map strip (List.removelast ((cur +:+ h) :: t)),
     List.last ((cur +:+ h) :: t) "").
Proof.
  revert parts cur. induction text as [|ch rest IH]; intros parts cur Hflat h t Hsplit.
  - injection Hsplit as <- <-. simpl. rewrite app_nil_r, append_nil_r. reflexivity.
  - unfold flat in Hflat. simpl in Hflat. apply andb_prop in Hflat as [Hch Hrest].
    apply negb_true_iff, orb_false_elim in Hch as [Ho Hc].
    destruct (split_on_cons "," rest) as (h' & t' & Hrest').
    cbn [split_loop]. rewrite Ho, Hc. cbv zeta. change (0 =? 0)%Z with true.
    rewrite andb_true_r. simpl in Hsplit. unfold is_char. rewrite Hrest' in Hsplit.
    destruct (Ascii.eqb ch ",") eqn:Ecomma.
    + injection Hsplit as <- <-. rewrite (IH _ _ Hrest h' t' Hrest').
      rewrite append_nil_r. change ("" +:+ h') with h'.
      cbn [List.removelast List.last List.map]. rewrite <- app_assoc. reflexivity.
    + injection Hsplit as <- <-. rewrite (IH _ _ Hrest h' t' Hrest').
      unfold snoc. rewrite append_assoc. reflexivity.
Qed.

Lemma split_loop_stripped (text : string) (parts : list string) (cur : string) (depth : Z) :
  Forall (fun p => strip p = p) parts ->
  Forall (fun p => strip p = p) (split_loop text parts cur depth).1.
Proof.
  revert parts cur depth. induction text as [|ch rest IH]; intros parts cur depth H; [exact H|].
  cbn [split_loop]. cbv zeta. destruct (is_char "," ch && _); apply IH; [|exact H].
  apply Forall_app. split; [exact H|]. constructor; [apply strip_idem | constructor].
Qed.

Lemma map_removelast {A B : Type} (f : A -> B) (l : list A) :
  List.map f (List.removelast l) = List.removelast (List.map f l).
Proof.
  induction l as [|x [|y l] IH]; [reflexivity | reflexivity|].
  change (List.removelast (x :: y :: l)) with (x :: List.removelast (y :: l)).
  cbn [List.map] in *. rewrite IH. reflexivity.
Qed.

Lemma map_last_cons {A B : Type} (f : A -> B) (x : A) (l : list A) (d : B) (d' : A) :
  List.last (List.map f (x :: l)) d = f (List.last (x :: l) d').
Proof.
  revert x. induction l as [|y l IH]; intros x; [reflexivity|]. exact (IH y).
Qed.

(** X17.  Every part that the splitter returns is free of surrounding white
    space.  On a text without brackets the parts are the pieces between the
    commas, each stripped, without the last piece when that one is empty: an
    empty piece between two commas is kept as an empty part, only an empty
    tail is dropped.  A closing bracket without an opening one does not take
    the depth below zero, so a comma after it still splits. *)
Theorem split_top_level_commas_parts (text : string) :
  Forall (fun p => strip p = p) (_split_top_level_commas text)
  /\ (flat text = true ->
      _split_top_level_commas text
      = drop_empty_tail (List.map strip (split_on "," text)))
  /\ _split_top_level_commas "Int,,Text," = ["Int"; ""; "Text"]
  /\ _split_top_level_commas "a), b" = ["a)"; "b"].
Proof.
  split; [|split; [|split; reflexivity]].
  - unfold _split_top_level_commas.
    pose proof (split_loop_stripped text [] "" 0 ltac:(constructor)) as H.
    destruct (split_loop text [] "" 0) as [parts cur]. simpl in H.
    destruct (nonempty (strip cur)); [|exact H].
    apply Forall_app. split; [exact H|]. constructor; [apply strip_idem | constructor].
  - intros Hflat. destruct (split_on_cons "," text) as (h & t & Hsplit).
    unfold _split_top_level_commas, drop_empty_tail.
    rewrite (split_loop_flat text [] "" Hflat h t Hsplit), Hsplit.
    change ("" +:+ h) with h. cbn [app]. cbv zeta.
    rewrite map_removelast, <- (map_last_cons strip h t "" "").
    destruct (nonempty (List.last (List.map strip (h :: t)) "")); [|reflexivity].
    symmetry. apply app_removelast_last. discriminate.
Qed.

Lemma split_top_level_commas_parts_witness :
  _split_top_level_commas " x: Int ,, y: Text , "
  = drop_empty_tail (List.map strip (split_on "," " x: Int ,, y: Text , ")).
Proof.
  apply (proj1 (proj2 (split_top_level_commas_parts " x: Int ,, y: Text , "))).
  vm_compute. reflexivity.
Defined.

(** ** Writes that the file system refuses *)







(** ** Structural failures, on an open tree *)




(** ** The export loop *)



(** ** Top-level commas *)

Lemma opening_char (ch : ascii) :
  In ch opening ->
  opens_bracket ch = true /\ closes_bracket ch = false /\ is_char "," ch = false.
Proof. intros [<-|[<-|[<-|[]]]]; repeat split; reflexivity. Qed.

Lemma closing_char (ch : ascii) :
  In ch closing ->
  opens_bracket ch = false /\ closes_bracket ch = true /\ is_char "," ch = false.
Proof. intros [<-|[<-|[<-|[]]]]; repeat split; reflexivity. Qed.

Lemma plain_char (ch : ascii) :
  ~ In ch opening -> ~ In ch closing -> opens_bracket ch = false /\ closes_bracket ch = false.
Proof.
  intros Ho Hc. unfold opens_bracket, closes_bracket, is_char. split.
  - destruct (Ascii.eqb_spec ch "(") as [->|_]; [exfalso; apply Ho; simpl; auto|].
    destruct (Ascii.eqb_spec ch "[") as [->|_]; [exfalso; apply Ho; simpl; auto|].
    destruct (Ascii.eqb_spec ch "{") as [->|_]; [exfalso; apply Ho; simpl; auto|].
    reflexivity.
  - destruct (Ascii.eqb_spec ch ")") as [->|_]; [exfalso; apply Hc; simpl; auto|].
    destruct (Ascii.eqb_spec ch "]") as [->|_]; [exfalso; apply Hc; simpl; auto|].
    destruct (Ascii.eqb_spec ch "}") as [->|_]; [exfalso; apply Hc; simpl; auto|].
    reflexivity.
Qed.

(** The loop passes over a balanced text without splitting and comes back to
    the depth it had. *)
Lemma split_loop_balanced (top : bool) (text : string) :
  balanced top text ->
  forall rest parts cur depth,
    (0 <= depth)%Z -> top = true \/ (0 < depth)%Z ->
    split_loop (text +:+ rest) parts cur depth = split_loop rest parts (cur +:+ text) depth.
Proof.
  induction 1 as [top|top ch s Ho Hc Hcomma _ IH|top o c inner s Ho Hc _ IHinner _ IHs];
    intros rest parts cur depth Hd Htop.
  - rewrite append_nil_r. reflexivity.
  - destruct (plain_char ch Ho Hc) as [Hopen Hclose].
    rewrite append_cons. cbn [split_loop]. rewrite Hopen, Hclose. cbv zeta.
    assert (Hno : is_char "," ch && (depth =? 0)%Z = false).
    { destruct Htop as [Htop|Htop].
      - unfold is_char. rewrite (proj2 (Ascii.eqb_neq ch ",") (Hcomma Htop)). reflexivity.
      - destruct (Z.eqb_spec depth 0); [lia | apply andb_false_r]. }
    rewrite Hno, (IH _ _ _ _ Hd Htop). unfold snoc. rewrite append_assoc. reflexivity.
  - destruct (opening_char o Ho) as (Hoo & _ & Hco).
    destruct (closing_char c Hc) as (Hoc & Hcc & Hcomma).
    rewrite append_cons, append_assoc, append_cons. cbn [split_loop]. rewrite Hoo. cbv zeta.
    rewrite Hco. cbn [andb].
    rewrite (IHinner (String c (s +:+ rest)) parts (snoc cur o) (depth + 1)%Z
               ltac:(lia) ltac:(right; lia)).
    cbn [split_loop]. rewrite Hoc, Hcc. cbv zeta. rewrite Hcomma. cbn [andb].
    replace (Z.max 0 (depth + 1 - 1)) with depth by lia.
    rewrite (IHs _ _ _ _ Hd Htop). unfold snoc. rewrite !append_assoc. reflexivity.
Qed.

Lemma split_loop_components (items : list string) (parts : list string) :
  Forall (balanced true) items -> items <> [] ->
  split_loop (join "," items) parts "" 0
  = (parts ++ List.map strip (List.removelast items), List.last items "").
Proof.
  intros H. revert parts. induction H as [|x items Hx Hitems IH]; intros parts Hne; [congruence|].
  destruct items as [|y l].
  - unfold join. simpl String.concat. rewrite <- (append_nil_r x) at 1.
    rewrite (split_loop_balanced true x Hx "" parts "" 0 ltac:(lia) ltac:(auto)).
    simpl. rewrite app_nil_r. reflexivity.
  - unfold join in *.
    change (String.concat "," (x :: y :: l))
      with (x +:+ String "," (String.concat "," (y :: l))).
    rewrite (split_loop_balanced true x Hx _ parts "" 0 ltac:(lia) ltac:(auto)).
    change ("" +:+ x) with x. cbn [split_loop]. change (is_char "," ",") with true.
    change (opens_bracket ",") with false. change (closes_bracket ",") with false.
    cbv iota zeta. change (0 =? 0)%Z with true. cbn [andb].
    rewrite (IH _ ltac:(discriminate)).
    change (List.removelast (x :: y :: l)) with (x :: List.removelast (y :: l)).
    change (List.last (x :: y :: l) "") with (List.last (y :: l) "").
    cbn [List.map]. rewrite <- app_assoc. reflexivity.
Qed.

Lemma split_components (items : list string) :
  Forall (balanced true) items ->
  _split_top_level_commas (join "," items) = drop_empty_tail (List.map strip items).
Proof.
  intros H. destruct items as [|x l]; [reflexivity|].
  unfold _split_top_level_commas, drop_empty_tail.
  rewrite (split_loop_components (x :: l) [] H ltac:(discriminate)). cbn [app]. cbv zeta.
  rewrite map_removelast, <- (map_last_cons strip x l "" "").
  destruct (nonempty (List.last (List.map strip (x :: l)) "")); [|reflexivity].
  symmetry. apply app_removelast_last. discriminate.
Qed.

Lemma rev_app_append (a b acc : string) :
  String.rev_app (a +:+ b) acc = String.rev_app b (String.rev_app a acc).
Proof.
  revert acc. induction a as [|c a IH]; intros acc; [reflexivity|].
  rewrite append_cons. simpl. apply IH.
Qed.

Lemma parenthesized (inner : string) :
  startswith ("(" +:+ inner +:+ ")") "(" = true
  /\ endswith ("(" +:+ inner +:+ ")") ")" = true
  /\ slice_1_m1 ("(" +:+ inner +:+ ")") = inner.
Proof.
  split; [rewrite append_cons; cbn [startswith]; apply startswith_nil|]. split.
  - unfold endswith, String.rev. rewrite <- append_assoc, rev_app_append.
    cbn [String.rev_app startswith]. apply startswith_nil.
  - unfold slice_1_m1. rewrite append_cons. change ("" +:+ inner +:+ ")") with (inner +:+ ")").
    cbn [String.length String.substring].
    replace (S (String.length (inner +:+ ")")) - 2)
      with (String.length (inner +:+ ")") - String.length ")")
      by (rewrite length_append; simpl; lia).
    apply substring_consumed.
Qed.

(** C5.  The splitter cuts a text at every comma that stands outside all
    brackets, of the three kinds alike, and nowhere else: the text made of
    components joined by commas, each with matched brackets and no comma
    outside them, is split into these components, stripped (without a last
    one that is blank).  A parenthesized type whose inside is such a text
    with two or more components is synthesized component by component,
    unless it is the name of a record.  The two examples of the
    specification come out as stated when no record is named like one of the
    types involved. *)
Theorem C5_tuple_split_at_top_level_commas
    (rt : odict (odict string)) (dt dn : list string) (fuel : nat) :
  (forall k, In k ["(Int, Text)"; "(Int, (Bool, Text))"; "(Bool, Text)"; "Int"; "Bool"; "Text"] ->
             od_get k rt = None) ->
  sample_expr_for_type (S (S fuel)) "(Int, Text)" rt dt dn
    = Some (Some ("(1, " +:+ DQ +:+ "x" +:+ DQ +:+ ")"))
  /\ sample_expr_for_type (S (S (S fuel))) "(Int, (Bool, Text))" rt dt dn
    = Some (Some ("(1, (True, " +:+ DQ +:+ "x" +:+ DQ +:+ "))"))
  /\ sample_expr_for_type (S (S fuel)) "(Bool, Text)" rt dt dn
    = Some (Some ("(True, " +:+ DQ +:+ "x" +:+ DQ +:+ ")"))
  /\ (forall items,
        Forall (balanced true) items ->
        _split_top_level_commas (join "," items) = drop_empty_tail (List.map strip items))
  /\ (forall ty inner items n,
        od_get (normalize ty) rt = None ->
        normalize ty = "(" +:+ inner +:+ ")" ->
        strip inner = join "," items ->
        Forall (balanced true) items ->
        2 <= length (drop_empty_tail (List.map strip items)) ->
        sample_expr_for_type (S n) ty rt dt dn =
        match map_opt (fun item =>
                         match sample_expr_for_type n item rt dt dn with
                         | None => None
                         | Some expr => Some (or_unit expr)
                         end)
                (drop_empty_tail (List.map strip items)) with
        | None => None
        | Some exprs => Some (Some ("(" +:+ join ", " exprs +:+ ")"))
        end).
Proof.
  intros H. split; [|split; [|split; [|split]]].
  - do 3 sample_step H. reflexivity.
  - do 5 sample_step H. reflexivity.
  - do 3 sample_step H. reflexivity.
  - exact split_components.
  - intros ty inner items n Hrec Hnorm Hinner Hitems Hlen.
    destruct (parenthesized inner) as (Hopen & Hclose & Hslice).
    rewrite <- (split_components items Hitems), <- Hinner, <- Hslice, <- Hnorm in Hlen |- *.
    apply sample_tuple_rule; [exact Hrec | rewrite Hnorm; exact Hopen
                             | rewrite Hnorm; exact Hclose | exact Hlen].
Qed.

Lemma C5_tuple_split_at_top_level_commas_witness :
  sample_expr_for_type 3 "(Int, (Bool, Text))" url_records ["1ms"] ["eom"]
  = Some (Some ("(1, (True, " +:+ DQ +:+ "x" +:+ DQ +:+ "))"))
  /\ sample_expr_for_type 3 " ( [Url] ,  {Text, Int},Url ) " url_records ["1ms"] ["eom"]
     = Some (Some ("(Unit, Unit, { host: " +:+ DQ +:+ "x" +:+ DQ +:+ ", port: 1 })")).
Proof.
  assert (H : forall k,
             In k ["(Int, Text)"; "(Int, (Bool, Text))"; "(Bool, Text)"; "Int"; "Bool"; "Text"] ->
             od_get k url_records = None).
  { intros k Hk. simpl in Hk.
    repeat (destruct Hk as [<- | Hk]; [reflexivity|]). destruct Hk. }
  pose proof (C5_tuple_split_at_top_level_commas url_records ["1ms"] ["eom"] 0 H)
    as (_ & Hnested & _ & _ & Hrule).
  split; [exact Hnested|].
  rewrite (Hrule " ( [Url] ,  {Text, Int},Url ) " " [Url] , {Text, Int},Url "
             ["[Url] "; " {Text, Int}"; "Url"] 2).
  - vm_compute. reflexivity.
  - reflexivity.
  - vm_compute. reflexivity.
  - vm_compute. reflexivity.
  - repeat first [ apply Forall_nil_2 | apply Forall_cons_2 ];
      repeat first
        [ apply balanced_nil
        | apply (balanced_group true "[" "]" "Url" " "); [simpl; tauto | simpl; tauto | |]
        | apply (balanced_group true "{" "}" "Text, Int" ""); [simpl; tauto | simpl; tauto | |]
        | apply balanced_char;
          [ intros [E|[E|[E|[]]]]; discriminate E
          | intros [E|[E|[E|[]]]]; discriminate E
          | first [ intros _ E; discriminate E | intros E; discriminate E ] |] ].
  - vm_compute. lia.
Defined.
